(** * dcrdex client/rpcserver: a shallow embedding and its verified properties

    The development follows the two source files of the package:
    - [types.go]     : command-line argument parsing ([ParseCmdArgs]);
    - [rpcserver.go] : the RPC server (construction, authentication, request
                       dispatch, market syncer, shutdown), followed by the
                       test of the comms websocket client ([TestWsConn]).

    Go values are modelled as the code has them: [int] and [uint64] as [Z]
    with the wrap-around written out, [string] as [string], slices as lists
    indexed through a checked access that panics out of range, maps as
    [gmap], [(value, error)] results as pairs with an optional error. *)

From Stdlib Require Import ZArith Lia Ascii String.
From stdpp Require Import base option list strings gmap pretty.

Local Open Scope Z_scope.

(** ** Go runtime outcomes: a call either returns or panics *)

Inductive panic :=
| IndexOutOfRange (i : Z) (len : Z)
| NilFuncCall.

Inductive outcome (A : Type) :=
| Ret (a : A)
| Panic (p : panic).
Arguments Ret {A} a.
Arguments Panic {A} p.

Definition outcome_bind {A B} (f : A → outcome B) (m : outcome A) : outcome B :=
  match m with
  | Ret a => f a
  | Panic p => Panic p
  end.

#[global] Instance outcome_mbind : MBind outcome := @outcome_bind.
#[global] Instance outcome_mret : MRet outcome := @Ret.

Lemma bind_Ret {A B} (a : A) (f : A → outcome B) : (Ret a ≫= f) = f a.
Proof. reflexivity. Qed.

Definition returns {A} (m : outcome A) : Prop := ∃ a, m = Ret a.

(** [s[i]] on a slice: the runtime checks the index. *)
Definition index {A} (s : list A) (i : nat) : outcome A :=
  match s !! i with
  | Some a => Ret a
  | None => Panic (IndexOutOfRange (Z.of_nat i) (Z.of_nat (length s)))
  end.

Lemma index_lt {A} (s : list A) (i : nat) :
  (i < length s)%nat → ∃ a, index s i = Ret a ∧ s !! i = Some a.
Proof.
  intros Hlt. destruct (lookup_lt_is_Some_2 s i Hlt) as [a Ha].
  exists a. unfold index. by rewrite Ha.
Qed.

Lemma index_returns_lt {A} (s : list A) (i : nat) a :
  index s i = Ret a → (i < length s)%nat.
Proof.
  unfold index. destruct (s !! i) eqn:E; [|done].
  intros _. by eapply lookup_lt_Some.
Qed.

(** Unsigned conversions of Go: the value modulo the width. *)
Definition uint32 (i : Z) : Z := i mod 2 ^ 32.
Definition uint64 (i : Z) : Z := i mod 2 ^ 64.

(** * types.go *)
Module CmdArgs.

(** The sentinel errors of the package, wrapped with [%w]. *)
Inductive sentinel := ErrArgs | ErrUnknownCmd.

(** [strconv.NumError] as far as the code can tell the cases apart. *)
Inductive NumError := ErrSyntax | ErrRange.

(** The errors built by [fmt.Errorf] in types.go, kept with the arguments of
    their format strings:
    - ["%w: %s", ErrUnknownCmd, cmd]
    - ["%w: wanted %d but got %d", ErrArgs, want[0], have]
    - ["%w: wanted between %d and %d but got %d", ErrArgs, want[0], want[1], have]
    - ["%w, %s must be an integer: %v", ErrArgs, name, err]
    - ["error reading %s: %v", path, err] *)
Inductive error :=
| UnknownCmdError (cmd : string)
| WantedError (want have : Z)
| WantedBetweenError (lo hi have : Z)
| NotIntegerError (name : string) (err : NumError)
| ReadingError (path : string) (err : string).

(** [errors.Unwrap]: which sentinel an error wraps. *)
Definition Unwrap (e : error) : option sentinel :=
  match e with
  | UnknownCmdError _ => Some ErrUnknownCmd
  | WantedError _ _ | WantedBetweenError _ _ _ | NotIntegerError _ _ => Some ErrArgs
  | ReadingError _ _ => None
  end.

Record openWalletForm := { owf_AssetID : Z; owf_AppPass : string }.

Record newWalletForm := {
  nwf_AssetID : Z;
  nwf_Account : string;
  nwf_INIPath : string;
  nwf_WalletPass : string;
  nwf_AppPass : string
}.

(** [core.Registration] and [core.PreRegisterForm], with the fields the
    parsers fill in. *)
Record Registration := {
  reg_Password : string;
  reg_URL : string;
  reg_Fee : Z;
  reg_Cert : string
}.

Record PreRegisterForm := { prf_URL : string; prf_Cert : string }.

(** The dynamic values returned as [interface{}]. *)
Inductive value :=
| VNil
| VString (s : string)
| VInt (i : Z)
| VNewWalletForm (f : newWalletForm)
| VOpenWalletForm (f : openWalletForm)
| VRegistration (r : Registration)
| VPreRegisterForm (f : PreRegisterForm).

(** A Go result pair [(interface{}, error)]; [None] is the nil error. *)
Abbreviation result := (value * option error)%type (only parsing).

Abbreviation parser := (list string → outcome result) (only parsing).

Section Parsers.

(** The route names are constants declared elsewhere in the package. Go
    rejects a map literal with duplicate constant keys, hence [NoDup]. *)
Variables helpRoute initRoute versionRoute preRegisterRoute newWalletRoute
          openWalletRoute closeWalletRoute walletsRoute registerRoute : string.

Definition routeNames : list string :=
  [helpRoute; initRoute; versionRoute; preRegisterRoute; newWalletRoute;
   openWalletRoute; closeWalletRoute; walletsRoute; registerRoute].

(** [strconv.Atoi]: the parsed [int] and the error. *)
Variable strconv_Atoi : string → Z * option NumError.

(** [ioutil.ReadFile]: the contents, or the text of the error. *)
Variable ioutil_ReadFile : string → string + string.

Definition nArgs : gmap string (list Z) :=
  <[helpRoute := [0; 1]]> (
  <[initRoute := [1]]> (
  <[versionRoute := [0]]> (
  <[preRegisterRoute := [1; 2]]> (
  <[newWalletRoute := [5]]> (
  <[openWalletRoute := [2]]> (
  <[closeWalletRoute := [1]]> (
  <[walletsRoute := [0]]> (
  <[registerRoute := [3; 4]]> ∅)))))))).

Definition checkNArgs (have : Z) (want : list Z) : outcome (option error) :=
  if decide (length want = 1%nat) then
    w0 ← index want 0;
    if decide (w0 ≠ have) then Ret (Some (WantedError w0 have)) else Ret None
  else
    w0 ← index want 0;
    if decide (have < w0) then
      w1 ← index want 1;
      Ret (Some (WantedBetweenError w0 w1 have))
    else
      w1 ← index want 1;
      if decide (have > w1) then Ret (Some (WantedBetweenError w0 w1 have))
      else Ret None.

Definition checkIntArg (arg name : string) : Z * option error :=
  let '(i, err) := strconv_Atoi arg in
  match err with
  | Some e => (i, Some (NotIntegerError name e))
  | None => (i, None)
  end.

Definition parseHelpArgs : parser := λ args,
  if decide (length args = 0%nat) then Ret (VNil, None)
  else a0 ← index args 0; Ret (VString a0, None).

Definition parseNewWalletArgs : parser := λ args,
  a2 ← index args 2;
  let '(assetID, err) := checkIntArg a2 "assetID" in
  match err with
  | Some e => Ret (VNil, Some e)
  | None =>
      a0 ← index args 0;
      a1 ← index args 1;
      a3 ← index args 3;
      a4 ← index args 4;
      Ret (VNewWalletForm {| nwf_AppPass := a0; nwf_WalletPass := a1;
                             nwf_AssetID := uint32 assetID;
                             nwf_Account := a3; nwf_INIPath := a4 |}, None)
  end.

Definition parseOpenWalletArgs : parser := λ args,
  a1 ← index args 1;
  let '(assetID, err) := checkIntArg a1 "assetID" in
  match err with
  | Some e => Ret (VNil, Some e)
  | None =>
      a0 ← index args 0;
      Ret (VOpenWalletForm {| owf_AppPass := a0; owf_AssetID := uint32 assetID |}, None)
  end.

Definition parseRegisterArgs : parser := λ args,
  a2 ← index args 2;
  let '(fee, err) := checkIntArg a2 "fee" in
  match err with
  | Some e => Ret (VNil, Some e)
  | None =>
      let finish (cert : string) : outcome result :=
        a0 ← index args 0;
        a1 ← index args 1;
        Ret (VRegistration {| reg_Password := a0; reg_URL := a1;
                              reg_Fee := uint64 fee; reg_Cert := cert |}, None) in
      if decide (length args = 4%nat) then
        a3 ← index args 3;
        match ioutil_ReadFile a3 with
        | inr e => a1 ← index args 1; Ret (VNil, Some (ReadingError a1 e))
        | inl certB => finish certB
        end
      else finish ""
  end.

Definition parsePreRegisterArgs : parser := λ args,
  let finish (cert : string) : outcome result :=
    a0 ← index args 0;
    Ret (VPreRegisterForm {| prf_URL := a0; prf_Cert := cert |}, None) in
  if decide (1 < length args)%nat then
    a1 ← index args 1;
    match ioutil_ReadFile a1 with
    | inr e => a1' ← index args 1; Ret (VNil, Some (ReadingError a1' e))
    | inl certB => finish certB
    end
  else finish "".

Definition parsers : gmap string parser :=
  <[helpRoute := parseHelpArgs]> (
  <[initRoute := (λ args, a0 ← index args 0; Ret (VString a0, None)) : parser]> (
  <[versionRoute := (λ _, Ret (VNil, None)) : parser]> (
  <[preRegisterRoute := parsePreRegisterArgs]> (
  <[newWalletRoute := parseNewWalletArgs]> (
  <[openWalletRoute := parseOpenWalletArgs]> (
  <[closeWalletRoute :=
      (λ args, a0 ← index args 0;
               let '(i, err) := checkIntArg a0 "assetID" in Ret (VInt i, err)) : parser]> (
  <[walletsRoute := (λ _, Ret (VNil, None)) : parser]> (
  <[registerRoute := parseRegisterArgs]> ∅)))))))).

(** [ParseCmdArgs] over an arbitrary parser table [ps]; the package's
    function is the instance at [parsers]. A nil map entry called as a
    function panics. *)
Definition ParseCmdArgsWith (ps : gmap string parser)
    (cmd : string) (args : list string) : outcome result :=
  match nArgs !! cmd with
  | None => Ret (VNil, Some (UnknownCmdError cmd))
  | Some nArg =>
      err ← checkNArgs (Z.of_nat (length args)) nArg;
      match err with
      | Some e => Ret (VNil, Some e)
      | None =>
          match ps !! cmd with
          | Some p => p args
          | None => Panic NilFuncCall
          end
      end
  end.

Definition ParseCmdArgs : string → list string → outcome result :=
  ParseCmdArgsWith parsers.

(** The count constraint of a table entry, in the words of the comment on
    [nArgs]: one integer is an exact match, two are the min and max. *)
Definition countAllowed (have : Z) (want : list Z) : Prop :=
  match want with
  | [n] => have = n
  | [lo; hi] => lo ≤ have ≤ hi
  | _ => False
  end.

#[global] Instance countAllowed_dec have want : Decision (countAllowed have want).
Proof. destruct want as [|? [|? [|? ?]]]; simpl; apply _. Defined.

(** *** Facts about [checkNArgs] *)

Lemma checkNArgs_exact (have n : Z) :
  checkNArgs have [n] = Ret (if decide (n ≠ have) then Some (WantedError n have) else None).
Proof. unfold checkNArgs. simpl. by case_decide. Qed.

Lemma checkNArgs_between (have lo hi : Z) :
  checkNArgs have [lo; hi] =
  Ret (if decide (have < lo ∨ have > hi)
       then Some (WantedBetweenError lo hi have) else None).
Proof.
  unfold checkNArgs. simpl.
  repeat case_decide; try reflexivity; lia.
Qed.

Lemma checkNArgs_allowed (have : Z) (want : list Z) :
  (length want = 1 ∨ length want = 2)%nat →
  countAllowed have want → checkNArgs have want = Ret None.
Proof.
  intros Hlen Hok.
  destruct want as [|w0 [|w1 [|w2 want]]]; simpl in *; try lia.
  - rewrite checkNArgs_exact. case_decide; [congruence | done].
  - rewrite checkNArgs_between. case_decide; [lia | done].
Qed.

Lemma checkNArgs_refused (have : Z) (want : list Z) :
  (length want = 1 ∨ length want = 2)%nat →
  ¬ countAllowed have want →
  ∃ e, checkNArgs have want = Ret (Some e) ∧ Unwrap e = Some ErrArgs.
Proof.
  intros Hlen Hbad.
  destruct want as [|w0 [|w1 [|w2 want]]]; simpl in *; try lia.
  - rewrite checkNArgs_exact. case_decide; [eauto | congruence].
  - rewrite checkNArgs_between. case_decide; [eauto | lia].
Qed.

Lemma checkNArgs_passed (have : Z) (want : list Z) :
  (length want = 1 ∨ length want = 2)%nat →
  checkNArgs have want = Ret None → countAllowed have want.
Proof.
  intros Hlen Hnone.
  destruct (decide (countAllowed have want)) as [|Hbad]; [done|].
  destruct (checkNArgs_refused have want Hlen Hbad) as (e & He & _). congruence.
Qed.

(** *** Every parser stays within its arguments *)

(** Split an argument list whose length is known into its elements. *)
Ltac split_args args :=
  repeat (destruct args as [|? args]; simpl in *; try lia).

(** Run a parser on an explicit argument list, branching on what the
    environment returns. *)
Ltac run_parser :=
  repeat first
    [ progress cbn
    | case_decide
    | match goal with
      | |- context [checkIntArg ?a ?n] => destruct (checkIntArg a n) as [? [?|]]
      | |- context [ioutil_ReadFile ?a] => destruct (ioutil_ReadFile a)
      end ];
  try lia; try (eexists; reflexivity).

Lemma parseHelpArgs_returns (args : list string) :
  0 ≤ Z.of_nat (length args) ≤ 1 → returns (parseHelpArgs args).
Proof. intros H. unfold parseHelpArgs. split_args args; run_parser. Qed.

Lemma parsePreRegisterArgs_returns (args : list string) :
  1 ≤ Z.of_nat (length args) ≤ 2 → returns (parsePreRegisterArgs args).
Proof. intros H. unfold parsePreRegisterArgs. split_args args; run_parser. Qed.

Lemma parseNewWalletArgs_returns (args : list string) :
  Z.of_nat (length args) = 5 → returns (parseNewWalletArgs args).
Proof. intros H. unfold parseNewWalletArgs. split_args args; run_parser. Qed.

Lemma parseOpenWalletArgs_returns (args : list string) :
  Z.of_nat (length args) = 2 → returns (parseOpenWalletArgs args).
Proof. intros H. unfold parseOpenWalletArgs. split_args args; run_parser. Qed.

Lemma parseRegisterArgs_returns (args : list string) :
  3 ≤ Z.of_nat (length args) ≤ 4 → returns (parseRegisterArgs args).
Proof. intros H. unfold parseRegisterArgs. split_args args; run_parser. Qed.

(** The two tables list the same keys in the same order: a command with an
    entry in [nArgs] has its parser in [parsers], the entry has one or two
    integers, and the parser returns on every argument list whose length the
    entry allows. *)
Lemma tables_aligned (cmd : string) (want : list Z) :
  nArgs !! cmd = Some want →
  (length want = 1 ∨ length want = 2)%nat ∧
  ∃ p : parser, parsers !! cmd = Some p ∧
       ∀ args, countAllowed (Z.of_nat (length args)) want → returns (p args).
Proof.
  unfold nArgs, parsers.
  rewrite !lookup_insert, !lookup_empty.
  repeat (case_decide;
          [intros [= <-]; split; [simpl; lia|]; eexists; split; [reflexivity|];
           simpl; intros args Hok |]); [..|done].
  - by apply parseHelpArgs_returns.
  - split_args args; run_parser.
  - by eexists.
  - by apply parsePreRegisterArgs_returns.
  - by apply parseNewWalletArgs_returns.
  - by apply parseOpenWalletArgs_returns.
  - split_args args; run_parser.
  - by eexists.
  - by apply parseRegisterArgs_returns.
Qed.

(** *** The claim about [ParseCmdArgs] *)

(** C10. For every command name and argument list, and whatever the parser
    table holds: a command without an entry in [nArgs] gets the
    unknown-command error, and an argument count outside the entry's exact
    value or [min, max] range gets an argument-count error (wrapping
    [ErrArgs]); in both cases the result does not depend on the parser table,
    so no parser is called. When the count is allowed, the command's parser
    returns (no index is out of range) and is what [ParseCmdArgs] returns;
    hence [ParseCmdArgs] never panics. *)
Theorem ParseCmdArgs_checked (ps : gmap string parser) (cmd : string) (args : list string) :
  (nArgs !! cmd = None →
     ParseCmdArgsWith ps cmd args = Ret (VNil, Some (UnknownCmdError cmd)))
  ∧ (∀ want, nArgs !! cmd = Some want →
       ¬ countAllowed (Z.of_nat (length args)) want →
       ∃ e, ParseCmdArgsWith ps cmd args = Ret (VNil, Some e)
            ∧ Unwrap e = Some ErrArgs)
  ∧ (∀ want (p : parser), nArgs !! cmd = Some want → parsers !! cmd = Some p →
       countAllowed (Z.of_nat (length args)) want →
       returns (p args) ∧ ParseCmdArgs cmd args = p args)
  ∧ returns (ParseCmdArgs cmd args).
Proof.
  unfold ParseCmdArgs, ParseCmdArgsWith.
  split; [by intros ->|].
  split.
  { intros want Hwant Hbad. rewrite Hwant.
    destruct (tables_aligned cmd want Hwant) as [Hlen _].
    destruct (checkNArgs_refused _ _ Hlen Hbad) as (e & -> & He).
    exists e. by split. }
  split.
  { intros want p Hwant Hp Hok. rewrite Hwant.
    destruct (tables_aligned cmd want Hwant) as (Hlen & p' & Hp' & Hret).
    rewrite (checkNArgs_allowed _ _ Hlen Hok), bind_Ret, Hp.
    split; [|done]. assert (p = p') as -> by congruence. by apply Hret. }
  destruct (nArgs !! cmd) as [want|] eqn:Hwant; [|by eexists].
  destruct (tables_aligned cmd want Hwant) as (Hlen & p & Hp & Hret).
  destruct (decide (countAllowed (Z.of_nat (length args)) want)) as [Hok|Hbad].
  - rewrite (checkNArgs_allowed _ _ Hlen Hok), bind_Ret, Hp. by apply Hret.
  - destruct (checkNArgs_refused _ _ Hlen Hbad) as (e & -> & _). by eexists.
Qed.

(** *** Further properties of the tables and the parsers *)

(** The entries of [nArgs] and [parsers], in the order of the literals. *)
Definition nArgsEntries : list (string * list Z) :=
  [(helpRoute, [0; 1]); (initRoute, [1]); (versionRoute, [0]);
   (preRegisterRoute, [1; 2]); (newWalletRoute, [5]); (openWalletRoute, [2]);
   (closeWalletRoute, [1]); (walletsRoute, [0]); (registerRoute, [3; 4])].

(** With pairwise distinct route names every key of the tables is found
    with its own entry. *)
Ltac distinct_names H :=
  unfold routeNames in H;
  rewrite !NoDup_cons, !not_elem_of_cons in H;
  destruct_and!.

Ltac find_entry :=
  unfold nArgs, parsers;
  repeat (rewrite lookup_insert_ne by congruence);
  rewrite lookup_insert_eq.

Lemma nArgs_entries (cmd : string) (want : list Z) :
  NoDup routeNames →
  (cmd, want) ∈ nArgsEntries → nArgs !! cmd = Some want.
Proof.
  intros Hnd Hin. distinct_names Hnd. unfold nArgsEntries in Hin.
  repeat (apply elem_of_cons in Hin as [[= -> ->]|Hin]; [by find_entry|]).
  by apply elem_of_nil in Hin.
Qed.

Lemma ParseCmdArgs_run (cmd : string) (want : list Z) (p : parser) (args : list string) :
  nArgs !! cmd = Some want → parsers !! cmd = Some p →
  countAllowed (Z.of_nat (length args)) want →
  ParseCmdArgs cmd args = p args.
Proof.
  intros Hwant Hp Hok. unfold ParseCmdArgs, ParseCmdArgsWith. rewrite Hwant.
  destruct (tables_aligned cmd want Hwant) as (Hlen & _).
  by rewrite (checkNArgs_allowed _ _ Hlen Hok), bind_Ret, Hp.
Qed.

Ltac in_entries :=
  unfold nArgsEntries; repeat (apply elem_of_cons; first [by left | right]).

(** X1. With pairwise distinct route names, each command given an allowed
    number of arguments is parsed by its own parser: [help] returns its
    argument or nil, [init] its argument, [version] and [wallets] nil,
    [closewallet] the integer and the error of [checkIntArg], and the other
    four are handed to their parsing functions. *)
Theorem ParseCmdArgs_dispatch :
  NoDup routeNames →
  ParseCmdArgs helpRoute [] = Ret (VNil, None)
  ∧ (∀ a, ParseCmdArgs helpRoute [a] = Ret (VString a, None))
  ∧ (∀ a, ParseCmdArgs initRoute [a] = Ret (VString a, None))
  ∧ ParseCmdArgs versionRoute [] = Ret (VNil, None)
  ∧ ParseCmdArgs walletsRoute [] = Ret (VNil, None)
  ∧ (∀ a, ParseCmdArgs closeWalletRoute [a] =
          Ret (VInt (checkIntArg a "assetID").1, (checkIntArg a "assetID").2))
  ∧ (∀ args, 1 ≤ Z.of_nat (length args) ≤ 2 →
       ParseCmdArgs preRegisterRoute args = parsePreRegisterArgs args)
  ∧ (∀ args, length args = 5%nat →
       ParseCmdArgs newWalletRoute args = parseNewWalletArgs args)
  ∧ (∀ args, length args = 2%nat →
       ParseCmdArgs openWalletRoute args = parseOpenWalletArgs args)
  ∧ (∀ args, 3 ≤ Z.of_nat (length args) ≤ 4 →
       ParseCmdArgs registerRoute args = parseRegisterArgs args).
Proof.
  intros Hnd.
  assert (∀ cmd want (p : parser) args,
            (cmd, want) ∈ nArgsEntries → parsers !! cmd = Some p →
            countAllowed (Z.of_nat (length args)) want →
            ParseCmdArgs cmd args = p args) as Hrun.
  { intros cmd want p args Hin. apply ParseCmdArgs_run. by apply nArgs_entries. }
  pose proof Hnd as Hne. distinct_names Hne.
  split; [|split; [|split; [|split; [|split; [|split; [|split; [|split; [|split]]]]]]]];
    intros.
  - rewrite (Hrun helpRoute [0; 1] parseHelpArgs); [done|in_entries|by find_entry|simpl; lia].
  - rewrite (Hrun helpRoute [0; 1] parseHelpArgs); [done|in_entries|by find_entry|simpl; lia].
  - erewrite (Hrun initRoute [1]); [|in_entries|by find_entry|simpl; lia]. done.
  - erewrite (Hrun versionRoute [0]); [|in_entries|by find_entry|simpl; lia]. done.
  - erewrite (Hrun walletsRoute [0]); [|in_entries|by find_entry|simpl; lia]. done.
  - erewrite (Hrun closeWalletRoute [1]); [|in_entries|by find_entry|simpl; lia].
    cbn. by destruct (checkIntArg a "assetID").
  - apply (Hrun preRegisterRoute [1; 2]); [in_entries|by find_entry|simpl; lia].
  - apply (Hrun newWalletRoute [5]); [in_entries|by find_entry|simpl; lia].
  - apply (Hrun openWalletRoute [2]); [in_entries|by find_entry|simpl; lia].
  - apply (Hrun registerRoute [3; 4]); [in_entries|by find_entry|simpl; lia].
Qed.

Lemma checkIntArg_error (arg name : string) (i : Z) (e : error) :
  checkIntArg arg name = (i, Some e) → Unwrap e = Some ErrArgs.
Proof.
  unfold checkIntArg. destruct (strconv_Atoi arg) as [j [err|]]; [|done].
  by intros [= _ <-].
Qed.

(** Take a parser apart along the calls it makes, for an argument list of
    unknown length. *)
Ltac run_cases H :=
  repeat first
    [ progress cbn in H
    | match type of H with
      | context [index ?l ?i] => destruct (index l i) eqn:?
      | context [checkIntArg ?a ?n] => destruct (checkIntArg a n) as [? [?|]] eqn:?
      | context [ioutil_ReadFile ?a] => destruct (ioutil_ReadFile a) eqn:?
      | context [decide ?P] => destruct (decide P)
      end ];
  simplify_eq.

(** An error of a parser wraps [ErrArgs] or reports a file that could not be
    read; the value that comes with it is nil, unless the parser is the one
    of [closewallet], which returns the integer of [strconv.Atoi]. *)
Lemma parsers_errors (cmd : string) (want : list Z) (p : parser) (args : list string)
    (v : value) (e : error) :
  nArgs !! cmd = Some want → parsers !! cmd = Some p →
  countAllowed (Z.of_nat (length args)) want →
  p args = Ret (v, Some e) →
  (Unwrap e = Some ErrArgs ∨ ∃ path msg, e = ReadingError path msg)
  ∧ (v = VNil
     ∨ (cmd = closeWalletRoute
        ∧ ∃ a i err, args = [a] ∧ strconv_Atoi a = (i, Some err)
                     ∧ v = VInt i ∧ e = NotIntegerError "assetID" err)).
Proof.
  unfold nArgs, parsers. rewrite !lookup_insert, !lookup_empty.
  repeat (case_decide; [intros [= <-] [= <-] Hok Hp|]); [..|done].
  - unfold parseHelpArgs in Hp. run_cases Hp.
  - run_cases Hp.
  - run_cases Hp.
  - unfold parsePreRegisterArgs in Hp. run_cases Hp; (split; [right; by eauto | by left]).
  - unfold parseNewWalletArgs in Hp.
    run_cases Hp; (split; [left; by eauto using checkIntArg_error | by left]).
  - unfold parseOpenWalletArgs in Hp.
    run_cases Hp; (split; [left; by eauto using checkIntArg_error | by left]).
  - simpl in Hok. destruct args as [|a [|a' args]]; simpl in Hok; try lia.
    cbn in Hp. unfold checkIntArg in Hp.
    destruct (strconv_Atoi a) as [i [err|]] eqn:Hatoi; [|done].
    injection Hp as <- <-. split; [by left|]. right. split; [done|]. by exists a, i, err.
  - run_cases Hp.
  - unfold parseRegisterArgs in Hp.
    run_cases Hp;
      (split; [first [left; by eauto using checkIntArg_error | right; by eauto] | by left]).
Qed.

(** X2. The errors of [ParseCmdArgs] tell the cases apart: an error wraps
    [ErrUnknownCmd] exactly when the command has no entry in [nArgs]; for a
    known command it wraps [ErrArgs] (wrong count, or an argument that is
    not an integer) or reports a file that could not be read. The value
    returned with an error is nil, with one exception: [closewallet], whose
    one argument is not an integer, returns the integer of [strconv.Atoi]
    next to its error. *)
Theorem ParseCmdArgs_errors (cmd : string) (args : list string) (v : value) (e : error) :
  ParseCmdArgs cmd args = Ret (v, Some e) →
  (Unwrap e = Some ErrUnknownCmd ↔ nArgs !! cmd = None)
  ∧ ((nArgs !! cmd = None ∧ e = UnknownCmdError cmd ∧ v = VNil)
     ∨ (is_Some (nArgs !! cmd) ∧ Unwrap e = Some ErrArgs)
     ∨ (is_Some (nArgs !! cmd) ∧ v = VNil ∧ ∃ path msg, e = ReadingError path msg))
  ∧ (v = VNil
     ∨ (cmd = closeWalletRoute
        ∧ ∃ a i err, args = [a] ∧ strconv_Atoi a = (i, Some err)
                     ∧ v = VInt i ∧ e = NotIntegerError "assetID" err)).
Proof.
  unfold ParseCmdArgs, ParseCmdArgsWith. intros Hrun.
  destruct (nArgs !! cmd) as [want|] eqn:Hwant.
  - assert ((Unwrap e = Some ErrArgs ∨ ∃ path msg, e = ReadingError path msg)
            ∧ (v = VNil
               ∨ (cmd = closeWalletRoute
                  ∧ ∃ a i err, args = [a] ∧ strconv_Atoi a = (i, Some err)
                               ∧ v = VInt i ∧ e = NotIntegerError "assetID" err)))
      as [Herr Hval].
    { destruct (tables_aligned cmd want Hwant) as (Hlen & p & Hp & _).
      destruct (decide (countAllowed (Z.of_nat (length args)) want)) as [Hok|Hbad].
      - rewrite (checkNArgs_allowed _ _ Hlen Hok), bind_Ret, Hp in Hrun.
        by apply (parsers_errors cmd want p args).
      - destruct (checkNArgs_refused _ _ Hlen Hbad) as (e' & He' & Hargs).
        rewrite He', bind_Ret in Hrun. injection Hrun as <- <-.
        split; [by left | by left]. }
    split; [|split; [|done]].
    + split; [|done]. intros Hunk.
      destruct Herr as [Hargs|(path & msg & ->)]; [congruence|done].
    + right. destruct Herr as [Hargs|(path & msg & ->)]; [left; eauto|].
      right. split; [eauto|]. split; [|eauto].
      destruct Hval as [?|(_ & a & i & err & _ & _ & _ & ?)]; [done|discriminate].
  - injection Hrun as <- <-. split; [done|]. split; [by left | by left].
Qed.

(** X3. The parsers do not check the range of an integer argument: every
    integer [strconv.Atoi] accepts is accepted, and what is stored is the
    integer modulo 2^32 for an asset ID and modulo 2^64 for a fee. The stored
    asset ID is thus always a [uint32], equal to the argument only when that
    was one. The other fields are the arguments in the order app password,
    wallet password, asset ID, account, INI path (new wallet), app password,
    asset ID (open wallet), password, URL, fee (register). *)
Theorem parsers_wrap_integers (a0 a1 a2 a3 a4 : string) (i : Z) :
  strconv_Atoi a2 = (i, None) →
  parseNewWalletArgs [a0; a1; a2; a3; a4] =
    Ret (VNewWalletForm {| nwf_AssetID := i mod 2 ^ 32; nwf_Account := a3;
                           nwf_INIPath := a4; nwf_WalletPass := a1;
                           nwf_AppPass := a0 |}, None)
  ∧ parseOpenWalletArgs [a0; a2] =
    Ret (VOpenWalletForm {| owf_AssetID := i mod 2 ^ 32; owf_AppPass := a0 |}, None)
  ∧ parseRegisterArgs [a0; a1; a2] =
    Ret (VRegistration {| reg_Password := a0; reg_URL := a1;
                          reg_Fee := i mod 2 ^ 64; reg_Cert := "" |}, None)
  ∧ 0 ≤ i mod 2 ^ 32 < 2 ^ 32
  ∧ (i mod 2 ^ 32 = i ↔ 0 ≤ i < 2 ^ 32).
Proof.
  intros Hatoi.
  unfold parseNewWalletArgs, parseOpenWalletArgs, parseRegisterArgs, checkIntArg.
  cbn. rewrite Hatoi. cbn.
  split; [done|]. split; [done|]. split; [done|].
  split; [apply Z.mod_pos_bound; lia|].
  split; [intros <-; apply Z.mod_pos_bound; lia | intros ?; apply Z.mod_small; lia].
Qed.

End Parsers.

(** *** A concrete environment

    [strconv.Atoi] for a 64-bit [int]: an optional sign and at least one
    decimal digit; a syntax error returns 0, a value out of range returns the
    nearest bound with a range error. *)
Definition digitValue (c : ascii) : option Z :=
  let n := Z.of_N (N_of_ascii c) in
  if decide (48 ≤ n ≤ 57) then Some (n - 48) else None.

Fixpoint digitsValue (acc : Z) (s : string) : option Z :=
  match s with
  | EmptyString => Some acc
  | String c s' =>
      match digitValue c with
      | Some d => digitsValue (10 * acc + d) s'
      | None => None
      end
  end.

Definition Atoi (s : string) : Z * option NumError :=
  let '(neg, body) :=
    match s with
    | String "-" r => (true, r)
    | String "+" r => (false, r)
    | _ => (false, s)
    end in
  match body with
  | EmptyString => (0, Some ErrSyntax)
  | _ =>
      match digitsValue 0 body with
      | None => (0, Some ErrSyntax)
      | Some n =>
          let v := if neg then - n else n in
          if decide (v < - 2 ^ 63) then (- 2 ^ 63, Some ErrRange)
          else if decide (2 ^ 63 - 1 < v) then (2 ^ 63 - 1, Some ErrRange)
          else (v, None)
      end
  end.

(** The package with the route names of the command-line client, [Atoi], and
    a file system holding one certificate. *)
Definition sampleReadFile (path : string) : string + string :=
  if decide (path = "dex.cert") then inl "-----BEGIN CERTIFICATE-----"
  else inr "no such file or directory".

Definition sampleParseCmdArgs : string → list string → outcome (value * option error) :=
  ParseCmdArgs "help" "init" "version" "preregister" "newwallet" "openwallet"
               "closewallet" "wallets" "register" Atoi sampleReadFile.

Example Atoi_42 : Atoi "42" = (42, None).
Proof. reflexivity. Qed.

Example Atoi_minus : Atoi "-7" = (-7, None).
Proof. reflexivity. Qed.

Example Atoi_syntax : Atoi "4x" = (0, Some ErrSyntax).
Proof. reflexivity. Qed.

Example Atoi_range : Atoi "9223372036854775808" = (2 ^ 63 - 1, Some ErrRange).
Proof. reflexivity. Qed.

Example parse_openwallet :
  sampleParseCmdArgs "openwallet" ["pass"; "42"] =
  Ret (VOpenWalletForm {| owf_AssetID := 42; owf_AppPass := "pass" |}, None).
Proof. vm_compute. reflexivity. Qed.

Example parse_register_cert :
  sampleParseCmdArgs "register" ["pass"; "dex.example"; "100"; "dex.cert"] =
  Ret (VRegistration {| reg_Password := "pass"; reg_URL := "dex.example";
                        reg_Fee := 100; reg_Cert := "-----BEGIN CERTIFICATE-----" |}, None).
Proof. vm_compute. reflexivity. Qed.

Example parse_closewallet_not_int :
  sampleParseCmdArgs "closewallet" ["btc"] =
  Ret (VInt 0, Some (NotIntegerError "assetID" ErrSyntax)).
Proof. vm_compute. reflexivity. Qed.

(** [ParseCmdArgs_checked] at the sample package: an unknown command, a
    missing argument, and an allowed call. *)
Lemma ParseCmdArgs_checked_witness :
  sampleParseCmdArgs "bogus" [] = Ret (VNil, Some (UnknownCmdError "bogus"))
  ∧ (∃ e, sampleParseCmdArgs "init" [] = Ret (VNil, Some e) ∧ Unwrap e = Some ErrArgs)
  ∧ returns (sampleParseCmdArgs "openwallet" ["pass"; "42"]).
Proof.
  pose (thm := ParseCmdArgs_checked "help" "init" "version" "preregister"
                 "newwallet" "openwallet" "closewallet" "wallets" "register"
                 Atoi sampleReadFile).
  split; [|split].
  - apply (thm _ "bogus" []). vm_compute. reflexivity.
  - apply (proj1 (proj2 (thm _ "init" [])) [1]).
    + vm_compute. reflexivity.
    + simpl. lia.
  - apply (thm (parsers "help" "init" "version" "preregister" "newwallet"
                  "openwallet" "closewallet" "wallets" "register" Atoi
                  sampleReadFile) "openwallet" ["pass"; "42"]).
Defined.

(** X4. [parseRegisterArgs] reads at most one file, the one its fourth
    argument names, and only when there are exactly four arguments;
    [parsePreRegisterArgs] reads at most the file its second argument names.
    Two file systems that agree on that file give the same result. When the
    file of [register] cannot be read, the error names the second argument
    (the URL). *)
Theorem parsers_read_one_file (atoi : string → Z * option NumError)
    (rf rf' : string → string + string) (args : list string) :
  ((∀ a3, length args = 4%nat → args !! 3%nat = Some a3 → rf a3 = rf' a3) →
   parseRegisterArgs atoi rf args = parseRegisterArgs atoi rf' args)
  ∧ ((∀ a1, args !! 1%nat = Some a1 → rf a1 = rf' a1) →
     parsePreRegisterArgs rf args = parsePreRegisterArgs rf' args)
  ∧ (∀ a0 a1 a2 a3 i err,
       args = [a0; a1; a2; a3] → atoi a2 = (i, None) → rf a3 = inr err →
       parseRegisterArgs atoi rf args = Ret (VNil, Some (ReadingError a1 err))).
Proof.
  split; [|split].
  - intros Hagree. unfold parseRegisterArgs.
    destruct (index args 2) as [a2|]; [|done]. cbn.
    destruct (checkIntArg atoi a2 "fee") as [fee [e|]]; [done|].
    case_decide as Hlen; [|done].
    destruct (index args 3) as [a3|] eqn:Ha3; [|done]. cbn.
    rewrite (Hagree a3 Hlen); [done|].
    unfold index in Ha3. destruct (args !! 3%nat); by simplify_eq.
  - intros Hagree. unfold parsePreRegisterArgs.
    case_decide; [|done].
    destruct (index args 1) as [a1|] eqn:Ha1; [|done]. cbn.
    rewrite (Hagree a1); [done|].
    unfold index in Ha1. destruct (args !! 1%nat); by simplify_eq.
  - intros a0 a1 a2 a3 i err -> Hatoi Hrf.
    unfold parseRegisterArgs, checkIntArg. cbn. rewrite Hatoi. cbn. by rewrite Hrf.
Qed.

(** [parsers_read_one_file] for a registration without a certificate. *)
Lemma parsers_read_one_file_witness :
  parseRegisterArgs Atoi sampleReadFile ["pass"; "dex.example"; "100"] =
  parseRegisterArgs Atoi (λ _, inr "no file system") ["pass"; "dex.example"; "100"].
Proof.
  apply (parsers_read_one_file Atoi sampleReadFile (λ _, inr "no file system")
           ["pass"; "dex.example"; "100"]).
  intros a3 Hlen. discriminate Hlen.
Defined.

(** [ParseCmdArgs_dispatch] at the sample package. *)
Lemma ParseCmdArgs_dispatch_witness :
  sampleParseCmdArgs "init" ["secret"] = Ret (VString "secret", None).
Proof.
  apply (ParseCmdArgs_dispatch "help" "init" "version" "preregister" "newwallet"
           "openwallet" "closewallet" "wallets" "register" Atoi sampleReadFile).
  unfold routeNames. repeat (apply NoDup_cons; split; [by vm_compute; intros Hin; repeat (apply elem_of_cons in Hin as [?|Hin]; [done|]); apply elem_of_nil in Hin|]).
  apply NoDup_nil_2.
Defined.

(** [ParseCmdArgs_errors] at a wallet that is not named by a number. *)
Lemma ParseCmdArgs_errors_witness :
  Unwrap (NotIntegerError "assetID" ErrSyntax) = Some ErrUnknownCmd
  ↔ nArgs "help" "init" "version" "preregister" "newwallet" "openwallet"
          "closewallet" "wallets" "register" !! "closewallet" = None.
Proof.
  apply (ParseCmdArgs_errors "help" "init" "version" "preregister" "newwallet"
           "openwallet" "closewallet" "wallets" "register" Atoi sampleReadFile
           "closewallet" ["btc"] (VInt 0)).
  vm_compute. reflexivity.
Defined.

(** [parsers_wrap_integers] at the asset ID -1. *)
Lemma parsers_wrap_integers_witness :
  parseOpenWalletArgs Atoi ["pass"; "-1"] =
  Ret (VOpenWalletForm {| owf_AssetID := 4294967295; owf_AppPass := "pass" |}, None).
Proof.
  apply (parsers_wrap_integers Atoi sampleReadFile "pass" "" "-1" "" "" (-1)). reflexivity.
Defined.

End CmdArgs.

(** * The message envelope (package msgjson)

    The codec is not among the sources of this package; its shapes are those
    of the wire format:
    [Request: { id, route, type: 1, payload }],
    [Response: { id, type: 2, payload: { result?, error? } }],
    [Notification: { route, type: 3, payload }]. Record fields carry the
    name of their struct as a prefix. *)
Module msgjson.

Definition InvalidMessageType : Z := 0.
Definition Request : Z := 1.
Definition Response : Z := 2.
Definition Notification : Z := 3.

(** [msgjson.Error]: [{code:int, message:string}]. *)
Record Error := { err_Code : Z; err_Message : string }.

(** [msgjson.ResponsePayload]; [None] is the nil slice or nil pointer, which
    the encoder leaves out. *)
Record ResponsePayload := {
  rp_Result : option string;
  rp_Error : option Error
}.

(** The payload of an envelope: raw JSON as received from a peer, or a
    response payload put there by the encoder. *)
Inductive payload :=
| RawJSON (raw : string)
| ResponseJSON (p : ResponsePayload).

Record Message := {
  msg_Type : Z;
  msg_Route : string;
  msg_ID : Z;
  msg_Payload : payload
}.

Definition NewError (code : Z) (message : string) : Error :=
  {| err_Code := code; err_Message := message |}.

(** Modelled from the spec: [msgjson.NewResponse], whose body is not among
    the sources. It builds the Response envelope of the wire format,
    [{ id: uint64>0, type: 2, payload: { result?, error? } }]; identifier 0 is
    reserved, so no Response is built for it and the error result that
    [parseHTTPRequest] tests for is returned. *)
Definition NewResponse (id : Z) (result : option string) (rpcErr : option Error)
    : Message + string :=
  if decide (id = 0) then inr "id = 0 not allowed for a response"
  else inl {| msg_Type := Response; msg_Route := ""; msg_ID := id;
              msg_Payload := ResponseJSON {| rp_Result := result; rp_Error := rpcErr |} |}.


(** The Response shape with only the error field set. *)
Definition onlyError (p : ResponsePayload) (code : Z) : Prop :=
  rp_Result p = None ∧ ∃ e, rp_Error p = Some e ∧ err_Code e = code.

End msgjson.

(** * net/http as the handlers see it *)
Module http.

Definition StatusOK : Z := 200.
Definition StatusBadRequest : Z := 400.
Definition StatusUnauthorized : Z := 401.
Definition StatusMethodNotAllowed : Z := 405.
Definition StatusUnprocessableEntity : Z := 422.
Definition StatusInternalServerError : Z := 500.

(** What a handler writes to the body: the JSON encoding of an envelope
    (kept as the envelope), or a line of plain text. *)
Inductive chunk :=
| JSONBody (m : msgjson.Message)
| TextBody (line : string).

(** [http.ResponseWriter]: the header map, the status line once written, and
    the body written so far. *)
Record ResponseWriter := {
  w_Header : gmap string (list string);
  w_Status : option Z;
  w_Body : list chunk
}.

Definition newWriter : ResponseWriter :=
  {| w_Header := ∅; w_Status := None; w_Body := [] |}.

Definition Header_Set (k v : string) (w : ResponseWriter) : ResponseWriter :=
  {| w_Header := <[k := [v]]> (w_Header w); w_Status := w_Status w; w_Body := w_Body w |}.

Definition Header_Add (k v : string) (w : ResponseWriter) : ResponseWriter :=
  {| w_Header := <[k := default [] (w_Header w !! k) ++ [v]]> (w_Header w);
     w_Status := w_Status w; w_Body := w_Body w |}.

(** Only the first [WriteHeader] sets the status. *)
Definition WriteHeader (code : Z) (w : ResponseWriter) : ResponseWriter :=
  {| w_Header := w_Header w;
     w_Status := match w_Status w with Some c => Some c | None => Some code end;
     w_Body := w_Body w |}.

(** A write before any [WriteHeader] sends status 200 first. *)
Definition Write (c : chunk) (w : ResponseWriter) : ResponseWriter :=
  {| w_Header := w_Header w;
     w_Status := match w_Status w with Some c => Some c | None => Some StatusOK end;
     w_Body := w_Body w ++ [c] |}.

(** [http.Error]: a plain-text reply with the given status. *)
Definition Error (w : ResponseWriter) (error : string) (code : Z) : ResponseWriter :=
  Write (TextBody error)
    (WriteHeader code
      (Header_Set "X-Content-Type-Options" "nosniff"
        (Header_Set "Content-Type" "text/plain; charset=utf-8" w))).

Record Request := {
  r_Method : string;
  r_Path : string;
  r_Header : gmap string (list string);
  r_RemoteAddr : string;
  (** what [ioutil.ReadAll(r.Body)] returns: the bytes, or a read error *)
  r_Body : string + string
}.

End http.

(** * The file system as [New] sees it (packages os and io/ioutil) *)
Module os.

Inductive errno := ENOENT | EACCES | ENOSPC.

Record File := { f_data : string; f_perm : Z }.

(** A path names a regular file, or something [stat] cannot reach (a
    directory on the way denies search permission). *)
Inductive node :=
| Regular (f : File)
| Inaccessible.

(** What can go wrong when a file is written at a path: no file can be
    created there (missing or read-only parent directory), or the device
    takes [n] more bytes and no more. *)
Inductive fault :=
| NoCreate
| Short (n : nat).

Record FS := {
  nodes : gmap string node;
  faults : gmap string fault
}.

(** The paths with a fault; at every other path a file can be created and
    written in full. *)
Definition nocreate (fs : FS) : gset string := dom (faults fs).


Definition Stat (fs : FS) (name : string) : option errno :=
  match nodes fs !! name with
  | Some (Regular _) => None
  | Some Inaccessible => Some EACCES
  | None => Some ENOENT
  end.

Definition IsNotExist (err : option errno) : bool :=
  match err with
  | Some ENOENT => true
  | _ => false
  end.

Definition ReadFile (fs : FS) (name : string) : string + errno :=
  match nodes fs !! name with
  | Some (Regular f) => inl (f_data f)
  | Some Inaccessible => inr EACCES
  | None => inr ENOENT
  end.

(** The file at [name] holds [data]. *)
Definition store (fs : FS) (name data : string) (perm : Z) : FS :=
  {| nodes := <[name := Regular {| f_data := data; f_perm := perm |}]> (nodes fs);
     faults := faults fs |}.

(** [f.Write(data)] and [f.Close()] on the file just opened, which is empty:
    a write that is cut short leaves the bytes written and returns the
    error. *)
Definition write (fs : FS) (name data : string) (perm : Z) : FS * option errno :=
  match faults fs !! name with
  | Some (Short n) =>
      if decide (n < String.length data)%nat
      then (store fs name (substring 0 n data) perm, Some ENOSPC)
      else (store fs name data perm, None)
  | _ => (store fs name data perm, None)
  end.

(** [ioutil.WriteFile]: open with O_WRONLY|O_CREATE|O_TRUNC, write, close.
    The file is created or truncated by the open, before anything is
    written; the permission bits are used only when the file is created (the
    process umask, which can only clear bits, is not modelled). *)
Definition WriteFile (fs : FS) (name data : string) (perm : Z) : FS * option errno :=
  match nodes fs !! name with
  | Some (Regular f) => write fs name data (f_perm f)
  | Some Inaccessible => (fs, Some EACCES)
  | None =>
      match faults fs !! name with
      | Some NoCreate => (fs, Some EACCES)
      | _ => write fs name data perm
      end
  end.

(** [os.Remove], its error dropped as the caller drops it. *)
Definition Remove (fs : FS) (name : string) : FS :=
  match nodes fs !! name with
  | Some (Regular _) => {| nodes := delete name (nodes fs); faults := faults fs |}
  | _ => fs
  end.

(** Permission bits: 0644 and 0600 in octal. *)
Definition perm0644 : Z := 6 * 64 + 4 * 8 + 4.
Definition perm0600 : Z := 6 * 64.

(** No bit is set for the group or for others. *)
Definition ownerOnly (perm : Z) : bool := Z.land perm (7 * 8 + 7) =? 0.

End os.

(** * rpcserver.go *)
Module Server.

Definition rpcTimeoutSeconds : Z := 10.
Definition rpcSemverMajor : Z := 0.
Definition rpcSemverMinor : Z := 0.
Definition rpcSemverPatch : Z := 0.

(** [time.Duration] counts nanoseconds. *)
Definition Second : Z := 1000000000.
Definition Hour : Z := 3600 * Second.

(** The curves of crypto/elliptic. *)
Inductive curve := P224 | P256 | P384 | P521.

(** [tls.VersionTLS12] is 0x0303. *)
Definition VersionTLS12 : Z := 3 * 256 + 3.

(** The errors [New] can return: its own
    [fmt.Errorf("missing cert pair file")], or one passed on from os,
    certgen or crypto/tls. *)
Inductive error :=
| MissingCertPairError
| PathError (e : os.errno)
| LibraryError (msg : string).

(** The middlewares and endpoints registered on the router. *)
Inductive middleware := Recoverer | RealIP | AuthMiddleware.
Inductive endpoint := HandleWS | HandleJSON.

Record Mux := {
  mux_middlewares : list middleware;
  mux_routes : list (string * string * endpoint)
}.

Record httpServer := {
  srv_Handler : Mux;
  srv_ReadTimeout : Z;
  srv_WriteTimeout : Z
}.

(** The process state [New] works on: the file system and the log. *)
Record World := {
  fs : os.FS;
  logs : list string
}.

Definition logf (line : string) (w : World) : World :=
  {| fs := fs w; logs := logs w ++ [line] |}.

Definition withFS (w : World) (fs' : os.FS) : World :=
  {| fs := fs'; logs := logs w |}.

(** The zero value of [[32]byte]. *)
Definition zeroSHA : list Z := replicate 32 0.

(** The challenge sent with a 401: [Basic realm=] and the realm in double
    quotes (character 34). *)
Definition basicRealm : string :=
  let q := String (ascii_of_nat 34) EmptyString in
  "Basic realm=" +:+ q +:+ "dex RPC" +:+ q.

(** [errUnknownCmd.Error()] *)
Definition errUnknownCmd : string := "unknown command".

Section WithEnvironment.

(** Types declared in other files or packages: the core behind the
    [ClientCore] interface, the websocket client session, [core.BookFeed],
    [tls.Certificate], and the package's [RawParams]. *)
Variables ClientCore wsClient BookFeed Certificate RawParams : Type.

(** Library functions, taken as they are: [sha256.Sum256] (32 bytes),
    [base64.StdEncoding.EncodeToString], [tls.X509KeyPair] on the two PEM
    blocks, [certgen.NewTLSCertPair], and [time.Now] in nanoseconds. *)
Variable sha256_Sum256 : string → list Z.
Variable base64_EncodeToString : string → string.
Variable tls_X509KeyPair : string → string → Certificate + string.
Variable certgen_NewTLSCertPair : curve → string → Z → list string → (string * string) + string.
Variable time_Now : Z.

(** The codec on incoming bytes: [json.Unmarshal] into a [msgjson.Message],
    and the [Unmarshal] method of the message, decoding its payload into
    [RawParams]; [None] is a decoding error. The two error codes used by the
    dispatcher. *)
Variable json_Unmarshal : string → option msgjson.Message.
Variable Unmarshal : msgjson.Message → option RawParams.
Variables RPCUnknownRoute RPCParseError : Z.

Record Config := {
  cfg_Core : ClientCore;
  cfg_Addr : string;
  cfg_User : string;
  cfg_Pass : string;
  cfg_Cert : string;
  cfg_Key : string
}.

Record tlsConfig := {
  tls_Certificates : list Certificate;
  tls_MinVersion : Z
}.

Record marketSyncer := {
  feed : BookFeed;
  cl : wsClient
}.

Record RPCServer := {
  core : ClientCore;
  addr : string;
  tlsCfg : tlsConfig;
  srv : httpServer;
  authsha : list Z;
  syncers : gmap string marketSyncer;
  clients : gmap Z wsClient
}.

(** A route handler takes the server and the raw parameters and returns a
    response payload; it may change the server it is given. *)
Abbreviation handler :=
  (RPCServer → RawParams → msgjson.ResponsePayload * RPCServer)%type (only parsing).

(** The route table and the websocket endpoint are declared in other files
    of the package. *)
Variable routes : gmap string handler.

Abbreviation Handler :=
  (RPCServer → http.ResponseWriter → http.Request → http.ResponseWriter * RPCServer)%type
  (only parsing).

Variable handleWS : Handler.

(** ** TLS bootstrap *)

Definition fileExists (fs : os.FS) (name : string) : bool :=
  negb (os.IsNotExist (os.Stat fs name)).

Definition genCertPair (certFile keyFile : string) (w : World) : World * option error :=
  let w := logf "Generating TLS certificates..." w in
  let org := "dcrdex autogenerated cert" in
  let validUntil := time_Now + 10 * 365 * 24 * Hour in
  match certgen_NewTLSCertPair P521 org validUntil [] with
  | inr e => (w, Some (LibraryError e))
  | inl (cert, key) =>
      match os.WriteFile (fs w) certFile cert os.perm0644 with
      | (fs1, Some e) => (withFS w fs1, Some (PathError e))
      | (fs1, None) =>
          match os.WriteFile fs1 keyFile key os.perm0600 with
          | (fs2, Some e) => (withFS w (os.Remove fs2 certFile), Some (PathError e))
          | (fs2, None) => (logf "Done generating TLS certificates" (withFS w fs2), None)
          end
      end
  end.

(** [tls.LoadX509KeyPair]: read both files, then parse the pair. *)
Definition LoadX509KeyPair (fs : os.FS) (certFile keyFile : string) : Certificate + error :=
  match os.ReadFile fs certFile with
  | inr e => inr (PathError e)
  | inl certPEM =>
      match os.ReadFile fs keyFile with
      | inr e => inr (PathError e)
      | inl keyPEM =>
          match tls_X509KeyPair certPEM keyPEM with
          | inr e => inr (LibraryError e)
          | inl keypair => inl keypair
          end
      end
  end.

(** The router as [New] leaves it. *)
Definition newMux : Mux :=
  {| mux_middlewares := [Recoverer; RealIP; AuthMiddleware];
     mux_routes := [("GET", "/ws", HandleWS); ("POST", "/", HandleJSON)] |}.

(** The hash the requests are verified against; the zero value unless both
    the user and the password are set. *)
Definition newAuthSHA (user pass : string) : list Z :=
  if decide (user ≠ "" ∧ pass ≠ "") then
    let login := user +:+ ":" +:+ pass in
    let auth := "Basic " +:+ base64_EncodeToString login in
    sha256_Sum256 auth
  else zeroSHA.

Definition New (cfg : Config) (w : World) : World * (RPCServer + error) :=
  let keyExists := fileExists (fs w) (cfg_Key cfg) in
  let certExists := fileExists (fs w) (cfg_Cert cfg) in
  if decide (certExists = negb keyExists) then (w, inr MissingCertPairError)
  else
    let '(w1, err) :=
      if negb keyExists && negb certExists
      then genCertPair (cfg_Cert cfg) (cfg_Key cfg) w
      else (w, None) in
    match err with
    | Some e => (w1, inr e)
    | None =>
        match LoadX509KeyPair (fs w1) (cfg_Cert cfg) (cfg_Key cfg) with
        | inr e => (w1, inr e)
        | inl keypair =>
            (w1, inl {| core := cfg_Core cfg;
                        srv := {| srv_Handler := newMux;
                                  srv_ReadTimeout := rpcTimeoutSeconds * Second;
                                  srv_WriteTimeout := rpcTimeoutSeconds * Second |};
                        addr := cfg_Addr cfg;
                        tlsCfg := {| tls_Certificates := [keypair];
                                     tls_MinVersion := VersionTLS12 |};
                        authsha := newAuthSHA (cfg_User cfg) (cfg_Pass cfg);
                        syncers := ∅;
                        clients := ∅ |})
        end
    end.

(** ** Request dispatch

    The calls to the package logger in the dispatcher and the middleware
    have no influence on what is returned or written and are left out. *)

Definition writeJSONWithStatus (w : http.ResponseWriter) (thing : msgjson.Message)
    (code : Z) : http.ResponseWriter :=
  http.Write (http.JSONBody thing)
    (http.WriteHeader code
      (http.Header_Set "Content-Type" "application/json; charset=utf-8" w)).

Definition writeJSON (w : http.ResponseWriter) (thing : msgjson.Message) : http.ResponseWriter :=
  writeJSONWithStatus w thing http.StatusOK.

Definition handleRequest (s : RPCServer) (req : msgjson.Message)
    : msgjson.ResponsePayload * RPCServer :=
  if decide (msgjson.msg_Route req = "") then
    ({| msgjson.rp_Result := None;
        msgjson.rp_Error := Some (msgjson.NewError RPCUnknownRoute "no route was supplied") |}, s)
  else
    match routes !! msgjson.msg_Route req with
    | None =>
        ({| msgjson.rp_Result := None;
            msgjson.rp_Error := Some (msgjson.NewError RPCUnknownRoute errUnknownCmd) |}, s)
    | Some h =>
        match Unmarshal req with
        | None =>
            ({| msgjson.rp_Result := None;
                msgjson.rp_Error :=
                  Some (msgjson.NewError RPCParseError "unable to unmarshal request") |}, s)
        | Some params => h s params
        end
    end.

Definition parseHTTPRequest : RPCServer → http.ResponseWriter → msgjson.Message →
    http.ResponseWriter * RPCServer := λ s w req,
  let '(payload, s') := handleRequest s req in
  match msgjson.NewResponse (msgjson.msg_ID req)
          (msgjson.rp_Result payload) (msgjson.rp_Error payload) with
  | inr err =>
      let msg := "error encoding response: " +:+ err in
      (http.Error w msg http.StatusInternalServerError, s')
  | inl resp => (writeJSON w resp, s')
  end.

Definition handleJSON : Handler := λ s w r,
  let w := http.Header_Set "Connection" "close" w in
  let w := http.Header_Set "Content-Type" "application/json" w in
  match http.r_Body r with
  | inr _ => (http.Error w "error reading request body" http.StatusBadRequest, s)
  | inl body =>
      match json_Unmarshal body with
      | None => (http.Error w "JSON decode error" http.StatusUnprocessableEntity, s)
      | Some req =>
          if decide (msgjson.msg_Type req ≠ msgjson.Request) then
            (http.Error w "Responses not accepted" http.StatusMethodNotAllowed, s)
          else parseHTTPRequest s w req
      end
  end.

(** ** Authentication *)

Definition authMiddleware (next : Handler) : Handler := λ s w r,
  let auth := default [] (http.r_Header r !! "Authorization") in
  match auth with
  | a :: _ =>
      if decide (authsha s ≠ sha256_Sum256 a) then
        let w := http.Header_Add "WWW-Authenticate" basicRealm w in
        (http.Error w "Unauthorized" http.StatusUnauthorized, s)
      else next s w r
  | [] =>
      let w := http.Header_Add "WWW-Authenticate" basicRealm w in
      (http.Error w "Unauthorized" http.StatusUnauthorized, s)
  end.

(** ** The router

    [mux.Use] wraps the whole router, the first middleware outermost, so a
    request passes the middlewares before any route is looked up.
    [middleware.Recoverer] answers a panic of an inner handler with a 500
    and [middleware.RealIP] rewrites [r.RemoteAddr]; with handlers that
    return and no log, both pass the request on unchanged. *)

Definition endpointHandler (e : endpoint) : Handler :=
  match e with
  | HandleWS => handleWS
  | HandleJSON => handleJSON
  end.

Definition routeRequest (m : Mux) : Handler := λ s w r,
  match list_find (λ '(method, path, _),
                     method = http.r_Method r ∧ path = http.r_Path r) (mux_routes m) with
  | Some (_, (_, _, e)) => endpointHandler e s w r
  | None =>
      if bool_decide (http.r_Path r ∈ (λ '(_, path, _), path) <$> mux_routes m)
      then (http.WriteHeader http.StatusMethodNotAllowed w, s)
      else (http.Error w "404 page not found" 404, s)
  end.

Definition applyMiddleware (m : middleware) (next : Handler) : Handler :=
  match m with
  | AuthMiddleware => authMiddleware next
  | Recoverer | RealIP => next
  end.

Definition ServeHTTP : Handler := λ s,
  foldr applyMiddleware (routeRequest (srv_Handler (srv s)))
        (mux_middlewares (srv_Handler (srv s))) s.

(** ** Notions used in the statements *)

(** The reply [parseHTTPRequest] writes for a payload: one JSON body holding
    a Response envelope with the identifier of the request. *)
Definition responseFor (req : msgjson.Message) (p : msgjson.ResponsePayload)
    : msgjson.Message :=
  {| msgjson.msg_Type := msgjson.Response; msgjson.msg_Route := "";
     msgjson.msg_ID := msgjson.msg_ID req;
     msgjson.msg_Payload := msgjson.ResponseJSON p |}.

(** The headers [handleJSON] sets before it reads the body. *)
Definition jsonHeaders (w : http.ResponseWriter) : http.ResponseWriter :=
  http.Header_Set "Content-Type" "application/json"
    (http.Header_Set "Connection" "close" w).

(** A reply is a structured error when its body is one JSON Response
    envelope whose payload has only the error field set. *)
Definition structuredError (w : http.ResponseWriter) : Prop :=
  ∃ resp p code,
    http.w_Body w = [http.JSONBody resp]
    ∧ msgjson.msg_Type resp = msgjson.Response
    ∧ msgjson.msg_Payload resp = msgjson.ResponseJSON p
    ∧ msgjson.onlyError p code.

(** The server [New] returns for a loaded key pair. *)
Definition builtServer (cfg : Config) (keypair : Certificate) : RPCServer :=
  {| core := cfg_Core cfg;
     srv := {| srv_Handler := newMux;
               srv_ReadTimeout := rpcTimeoutSeconds * Second;
               srv_WriteTimeout := rpcTimeoutSeconds * Second |};
     addr := cfg_Addr cfg;
     tlsCfg := {| tls_Certificates := [keypair]; tls_MinVersion := VersionTLS12 |};
     authsha := newAuthSHA (cfg_User cfg) (cfg_Pass cfg);
     syncers := ∅;
     clients := ∅ |}.

(** Loading the pair and building the server, the last step of [New]. *)
Definition loadAndBuild (cfg : Config) (fs : os.FS) : RPCServer + error :=
  match LoadX509KeyPair fs (cfg_Cert cfg) (cfg_Key cfg) with
  | inr e => inr e
  | inl keypair => inl (builtServer cfg keypair)
  end.

Definition withCredentials (cfg : Config) (user pass : string) : Config :=
  {| cfg_Core := cfg_Core cfg; cfg_Addr := cfg_Addr cfg;
     cfg_User := user; cfg_Pass := pass;
     cfg_Cert := cfg_Cert cfg; cfg_Key := cfg_Key cfg |}.

Definition succeeded {A B} (r : A + B) : bool :=
  match r with
  | inl _ => true
  | inr _ => false
  end.

(** The 401 reply of [authMiddleware]. *)
Definition unauthorized (w : http.ResponseWriter) : http.ResponseWriter :=
  http.Error (http.Header_Add "WWW-Authenticate" basicRealm w)
             "Unauthorized" http.StatusUnauthorized.

(** The first value of the Authorization header, if any. *)
Definition authorization (r : http.Request) : option string :=
  head (default [] (http.r_Header r !! "Authorization")).

(** ** Properties of the dispatcher *)

Lemma NewResponse_nonzero (req : msgjson.Message) (p : msgjson.ResponsePayload) :
  msgjson.msg_ID req ≠ 0 →
  msgjson.NewResponse (msgjson.msg_ID req) (msgjson.rp_Result p) (msgjson.rp_Error p)
  = inl (responseFor req p).
Proof.
  intros Hid. unfold msgjson.NewResponse, responseFor.
  case_decide; [done|]. by destruct p.
Qed.

Lemma parseHTTPRequest_writes (s : RPCServer) (w : http.ResponseWriter)
    (req : msgjson.Message) :
  msgjson.msg_ID req ≠ 0 →
  parseHTTPRequest s w req =
  (writeJSON w (responseFor req (handleRequest s req).1), (handleRequest s req).2).
Proof.
  intros Hid. unfold parseHTTPRequest.
  destruct (handleRequest s req) as [payload s'] eqn:Hreq. simpl.
  by rewrite NewResponse_nonzero.
Qed.


Lemma writeJSON_body (w : http.ResponseWriter) (m : msgjson.Message) :
  http.w_Body (writeJSON w m) = http.w_Body w ++ [http.JSONBody m].
Proof. reflexivity. Qed.

Lemma writeJSON_status (w : http.ResponseWriter) (m : msgjson.Message) :
  http.w_Status w = None → http.w_Status (writeJSON w m) = Some http.StatusOK.
Proof. simpl. by intros ->. Qed.

Lemma Error_body (w : http.ResponseWriter) (msg : string) (code : Z) :
  http.w_Body (http.Error w msg code) = http.w_Body w ++ [http.TextBody msg].
Proof. reflexivity. Qed.

Lemma Error_status (w : http.ResponseWriter) (msg : string) (code : Z) :
  http.w_Status w = None → http.w_Status (http.Error w msg code) = Some code.
Proof. simpl. by intros ->. Qed.

Lemma handleRequest_no_route (s : RPCServer) (req : msgjson.Message) :
  msgjson.msg_Route req = "" ∨ routes !! msgjson.msg_Route req = None →
  ∃ text, handleRequest s req =
    ({| msgjson.rp_Result := None;
        msgjson.rp_Error := Some (msgjson.NewError RPCUnknownRoute text) |}, s).
Proof.
  intros Hroute. unfold handleRequest.
  case_decide; [by eexists|].
  destruct Hroute as [?| ->]; [done | by eexists].
Qed.

Lemma handleRequest_bad_params (s : RPCServer) (req : msgjson.Message) :
  msgjson.msg_Route req ≠ "" →
  is_Some (routes !! msgjson.msg_Route req) →
  Unmarshal req = None →
  handleRequest s req =
    ({| msgjson.rp_Result := None;
        msgjson.rp_Error :=
          Some (msgjson.NewError RPCParseError "unable to unmarshal request") |}, s).
Proof.
  intros Hne [h Hh] Hparams. unfold handleRequest.
  case_decide; [done|]. by rewrite Hh, Hparams.
Qed.


Lemma handleJSON_request (s : RPCServer) (w : http.ResponseWriter) (r : http.Request)
    (body : string) (req : msgjson.Message) :
  http.r_Body r = inl body →
  json_Unmarshal body = Some req →
  msgjson.msg_Type req = msgjson.Request →
  handleJSON s w r = parseHTTPRequest s (jsonHeaders w) req.
Proof.
  intros Hbody Hdec Htype. unfold handleJSON. rewrite Hbody, Hdec.
  case_decide; done.
Qed.



(** C3, as the code has it. On the HTTPS endpoint, an unknown (or empty)
    route and parameters that fail to decode, in a Request envelope with a
    nonzero identifier, are answered with a structured error Response (one
    JSON body, only the error field set, with the unknown-route and the
    parse-error code). A body that does not decode as an envelope is
    answered with the plain-text HTTP error 422 [JSON decode error], and an
    envelope that is not a Request with the plain-text HTTP error 405. *)
Theorem handleJSON_protocol_errors (s : RPCServer) (r : http.Request) (body : string) :
  http.r_Body r = inl body →
  (json_Unmarshal body = None →
     handleJSON s http.newWriter r =
     (http.Error (jsonHeaders http.newWriter) "JSON decode error"
                 http.StatusUnprocessableEntity, s))
  ∧ (∀ req, json_Unmarshal body = Some req →
       msgjson.msg_Type req ≠ msgjson.Request →
       handleJSON s http.newWriter r =
       (http.Error (jsonHeaders http.newWriter) "Responses not accepted"
                   http.StatusMethodNotAllowed, s))
  ∧ (∀ req, json_Unmarshal body = Some req →
       msgjson.msg_Type req = msgjson.Request →
       msgjson.msg_ID req ≠ 0 →
       (msgjson.msg_Route req = "" ∨ routes !! msgjson.msg_Route req = None
        ∨ Unmarshal req = None) →
       structuredError (handleJSON s http.newWriter r).1
       ∧ http.w_Status (handleJSON s http.newWriter r).1 = Some http.StatusOK
       ∧ (handleJSON s http.newWriter r).2 = s).
Proof.
  intros Hbody. split; [|split].
  - intros Hdec. unfold handleJSON. by rewrite Hbody, Hdec.
  - intros req Hdec Htype. unfold handleJSON. rewrite Hbody, Hdec.
    case_decide; done.
  - intros req Hdec Htype Hid Herr.
    rewrite (handleJSON_request s _ r body req Hbody Hdec Htype).
    rewrite (parseHTTPRequest_writes s _ req Hid).
    assert (∃ code text, handleRequest s req =
              ({| msgjson.rp_Result := None;
                  msgjson.rp_Error := Some (msgjson.NewError code text) |}, s))
      as (code & text & ->).
    { destruct (decide (msgjson.msg_Route req = "")) as [|Hne].
      { destruct (handleRequest_no_route s req) as [text ->]; eauto. }
      destruct (routes !! msgjson.msg_Route req) as [h|] eqn:Hh.
      - destruct Herr as [?|[?|Hparams]]; [done..|].
        rewrite handleRequest_bad_params; eauto.
      - destruct (handleRequest_no_route s req) as [text ->]; eauto. }
    split; [|done]. eexists _, _, code. repeat split; eauto.
Qed.

(** ** Properties of the construction *)

Lemma New_partial (cfg : Config) (w : World) :
  fileExists (fs w) (cfg_Cert cfg) ≠ fileExists (fs w) (cfg_Key cfg) →
  New cfg w = (w, inr MissingCertPairError).
Proof.
  intros Hne. unfold New. case_decide as Hd; [done|].
  destruct (fileExists (fs w) (cfg_Cert cfg)), (fileExists (fs w) (cfg_Key cfg));
    simpl in *; congruence.
Qed.

Lemma New_both (cfg : Config) (w : World) :
  fileExists (fs w) (cfg_Cert cfg) = true →
  fileExists (fs w) (cfg_Key cfg) = true →
  New cfg w = (w, loadAndBuild cfg (fs w)).
Proof.
  intros Hc Hk. unfold New, loadAndBuild. rewrite Hc, Hk.
  destruct (decide _) as [|_]; [done|]. simpl. by destruct LoadX509KeyPair.
Qed.

Lemma New_neither (cfg : Config) (w : World) :
  fileExists (fs w) (cfg_Cert cfg) = false →
  fileExists (fs w) (cfg_Key cfg) = false →
  New cfg w =
  match genCertPair (cfg_Cert cfg) (cfg_Key cfg) w with
  | (w1, Some e) => (w1, inr e)
  | (w1, None) => (w1, loadAndBuild cfg (fs w1))
  end.
Proof.
  intros Hc Hk. unfold New, loadAndBuild. rewrite Hc, Hk.
  destruct (decide _) as [|_]; [done|]. simpl.
  destruct genCertPair as [w1 [e|]]; [done|]. by destruct LoadX509KeyPair.
Qed.

Lemma fileExists_false (fs : os.FS) (name : string) :
  fileExists fs name = false ↔ os.nodes fs !! name = None.
Proof.
  unfold fileExists, os.Stat.
  destruct (os.nodes fs !! name) as [[f|]|]; simpl; split; congruence.
Qed.

Lemma WriteFile_create (fs : os.FS) (name data : string) (perm : Z) :
  os.nodes fs !! name = None →
  name ∉ os.nocreate fs →
  os.WriteFile fs name data perm = (os.store fs name data perm, None).
Proof.
  intros Hnone Hok. unfold os.nocreate in Hok. apply not_elem_of_dom in Hok.
  unfold os.WriteFile, os.write. by rewrite Hnone, Hok.
Qed.

(** What a successful [genCertPair] leaves behind. *)
Lemma genCertPair_writes (certFile keyFile cert key : string) (w : World) :
  os.nodes (fs w) !! certFile = None →
  os.nodes (fs w) !! keyFile = None →
  certFile ≠ keyFile →
  certFile ∉ os.nocreate (fs w) →
  keyFile ∉ os.nocreate (fs w) →
  certgen_NewTLSCertPair P521 "dcrdex autogenerated cert"
    (time_Now + 10 * 365 * 24 * Hour) [] = inl (cert, key) →
  genCertPair certFile keyFile w =
  ({| fs := os.store (os.store (fs w) certFile cert os.perm0644) keyFile key os.perm0600;
      logs := logs w ++ ["Generating TLS certificates..."; "Done generating TLS certificates"] |},
   None).
Proof.
  intros Hc Hk Hne Hcc Hkc Hgen. unfold genCertPair. rewrite Hgen.
  change (fs (logf _ w)) with (fs w).
  rewrite (WriteFile_create (fs w)) by done.
  rewrite WriteFile_create; simpl; [|by rewrite lookup_insert_ne|done].
  unfold logf, withFS. simpl. by rewrite <- app_assoc.
Qed.

(** Credentials play no part in the bootstrap: the world [New] leaves and
    whether it fails are the same for every user and password. *)
Lemma New_credentials_irrelevant (cfg : Config) (w : World) (user pass : string) :
  (New (withCredentials cfg user pass) w).1 = (New cfg w).1
  ∧ succeeded (New (withCredentials cfg user pass) w).2 = succeeded (New cfg w).2.
Proof.
  unfold New. simpl. case_decide; [done|].
  destruct (if negb _ && negb _ then _ else _) as [w1 [e|]]; [done|].
  by destruct LoadX509KeyPair.
Qed.

Lemma New_authsha (cfg : Config) (w : World) (s : RPCServer) :
  (New cfg w).2 = inl s →
  authsha s = newAuthSHA (cfg_User cfg) (cfg_Pass cfg) ∧ srv_Handler (srv s) = newMux.
Proof.
  unfold New. case_decide; [done|].
  destruct (if negb _ && negb _ then _ else _) as [w1 [e|]]; [done|].
  destruct LoadX509KeyPair; [|done]. simpl. by intros [= <-].
Qed.

Lemma authMiddleware_rejects (next : Handler) (s : RPCServer)
    (w : http.ResponseWriter) (r : http.Request) :
  (∀ a, authorization r = Some a → sha256_Sum256 a ≠ authsha s) →
  authMiddleware next s w r = (unauthorized w, s).
Proof.
  unfold authorization, authMiddleware. intros Hbad.
  destruct (default [] (http.r_Header r !! "Authorization")) as [|a auth]; [done|].
  case_decide as Hd; [done|]. destruct (Hbad a); [done|].
  by destruct (decide (authsha s = sha256_Sum256 a)).
Qed.

Lemma authMiddleware_admits (next : Handler) (s : RPCServer)
    (w : http.ResponseWriter) (r : http.Request) (a : string) :
  authorization r = Some a → sha256_Sum256 a = authsha s →
  authMiddleware next s w r = next s w r.
Proof.
  unfold authorization, authMiddleware. intros Ha Hsha.
  destruct (default [] (http.r_Header r !! "Authorization")) as [|a' auth]; [done|].
  simpl in Ha. injection Ha as ->. case_decide; congruence.
Qed.

Lemma ServeHTTP_newMux (s : RPCServer) :
  srv_Handler (srv s) = newMux →
  ServeHTTP s = authMiddleware (routeRequest newMux) s.
Proof. unfold ServeHTTP. by intros ->. Qed.

(** C4, as the code has it. When the user or the password of the [Config]
    is empty, [New] does not fail on that account: the world it leaves and
    whether it succeeds are what they are for any other credentials. The
    server it returns has the zero value as its authentication hash, and
    this is no bypass: whatever the method and path, a request without an
    Authorization header, or whose first Authorization value does not hash
    to 32 zero bytes, is answered 401 and reaches no endpoint (the server is
    unchanged). *)
Theorem New_without_credentials (cfg : Config) (w : World) :
  cfg_User cfg = "" ∨ cfg_Pass cfg = "" →
  (∀ user pass,
     (New (withCredentials cfg user pass) w).1 = (New cfg w).1
     ∧ succeeded (New (withCredentials cfg user pass) w).2 = succeeded (New cfg w).2)
  ∧ ∀ s, (New cfg w).2 = inl s →
      authsha s = zeroSHA
      ∧ ∀ w' r,
          (∀ a, authorization r = Some a → sha256_Sum256 a ≠ zeroSHA) →
          ServeHTTP s w' r = (unauthorized w', s).
Proof.
  intros Hempty. split; [intros; apply New_credentials_irrelevant|].
  intros s Hs. destruct (New_authsha cfg w s Hs) as [Hsha Hmux].
  assert (authsha s = zeroSHA) as Hzero.
  { rewrite Hsha. unfold newAuthSHA. case_decide as Hd; [|done].
    destruct Hd, Hempty; congruence. }
  split; [done|]. intros w' r Hbad.
  rewrite (ServeHTTP_newMux s Hmux).
  apply authMiddleware_rejects. by rewrite Hzero.
Qed.

(** C5, as the code has it. At construction: if the certificate and the key
    file both exist, [New] loads the pair from them and leaves the file
    system and the log alone; if exactly one of them exists, it returns the
    error [missing cert pair file], again leaving both alone (nothing is
    generated); if neither exists (two distinct paths at which files can be
    created, and a generator that succeeds), a pair is generated on the
    P-521 curve, valid for ten years, the certificate is written with
    permissions 0644 and the key with the owner-only permissions 0600, no
    other file changes, and the pair just written is the one loaded. *)
Theorem New_cert_pair (cfg : Config) (w : World) :
  (fileExists (fs w) (cfg_Cert cfg) = true →
   fileExists (fs w) (cfg_Key cfg) = true →
   New cfg w = (w, loadAndBuild cfg (fs w)))
  ∧ (fileExists (fs w) (cfg_Cert cfg) ≠ fileExists (fs w) (cfg_Key cfg) →
     New cfg w = (w, inr MissingCertPairError))
  ∧ (fileExists (fs w) (cfg_Cert cfg) = false →
     fileExists (fs w) (cfg_Key cfg) = false →
     cfg_Cert cfg ≠ cfg_Key cfg →
     cfg_Cert cfg ∉ os.nocreate (fs w) →
     cfg_Key cfg ∉ os.nocreate (fs w) →
     ∀ certPEM keyPEM,
       certgen_NewTLSCertPair P521 "dcrdex autogenerated cert"
         (time_Now + 10 * 365 * 24 * Hour) [] = inl (certPEM, keyPEM) →
       os.nodes (fs (New cfg w).1) !! cfg_Cert cfg =
         Some (os.Regular {| os.f_data := certPEM; os.f_perm := os.perm0644 |})
       ∧ os.nodes (fs (New cfg w).1) !! cfg_Key cfg =
         Some (os.Regular {| os.f_data := keyPEM; os.f_perm := os.perm0600 |})
       ∧ os.ownerOnly os.perm0600 = true
       ∧ (∀ name, name ≠ cfg_Cert cfg → name ≠ cfg_Key cfg →
            os.nodes (fs (New cfg w).1) !! name = os.nodes (fs w) !! name)
       ∧ (New cfg w).2 =
         match tls_X509KeyPair certPEM keyPEM with
         | inl keypair => inl (builtServer cfg keypair)
         | inr e => inr (LibraryError e)
         end).
Proof.
  split; [apply New_both|]. split; [apply New_partial|].
  intros Hc Hk Hne Hcc Hkc certPEM keyPEM Hgen.
  rewrite (New_neither cfg w Hc Hk).
  apply fileExists_false in Hc, Hk.
  rewrite (genCertPair_writes _ _ certPEM keyPEM w Hc Hk Hne Hcc Hkc Hgen).
  cbn [fst snd fs os.nodes os.store].
  split; [by rewrite lookup_insert_ne, lookup_insert_eq|].
  split; [by rewrite lookup_insert_eq|].
  split; [reflexivity|].
  split; [intros name ? ?; by rewrite !lookup_insert_ne|].
  unfold loadAndBuild, LoadX509KeyPair, os.ReadFile. cbn [fs os.nodes os.store].
  rewrite lookup_insert_ne, !lookup_insert_eq by done. cbn [os.f_data].
  by destruct tls_X509KeyPair.
Qed.

(** ** Further properties of the construction and the handlers *)


(** A write that returns no error left the data in the file. *)
Lemma WriteFile_written (fs fs' : os.FS) (name data : string) (perm : Z) :
  os.WriteFile fs name data perm = (fs', None) →
  ∃ perm', fs' = os.store fs name data perm'.
Proof.
  unfold os.WriteFile, os.write.
  destruct (os.nodes fs !! name) as [[f|]|] eqn:Hnode.
  - destruct (os.faults fs !! name) as [[|n]|]; [by intros [= <-]; eexists| |by intros [= <-]; eexists].
    case_decide; [done|]. intros [= <-]. by eexists.
  - done.
  - destruct (os.faults fs !! name) as [[|n]|]; [done| |by intros [= <-]; eexists].
    case_decide; [done|]. intros [= <-]. by eexists.
Qed.



Lemma fileExists_Regular (fs : os.FS) (name : string) (f : os.File) :
  os.nodes fs !! name = Some (os.Regular f) → fileExists fs name = true.
Proof. unfold fileExists, os.Stat. by intros ->. Qed.


(** A successful [genCertPair] leaves both files. *)
Lemma genCertPair_success (certFile keyFile : string) (w : World) :
  (genCertPair certFile keyFile w).2 = None →
  (∃ f, os.nodes (fs (genCertPair certFile keyFile w).1) !! certFile = Some (os.Regular f))
  ∧ (∃ f, os.nodes (fs (genCertPair certFile keyFile w).1) !! keyFile = Some (os.Regular f)).
Proof.
  unfold genCertPair.
  destruct (certgen_NewTLSCertPair _ _ _ _) as [[cert key]|e]; [|done].
  change (fs (logf _ w)) with (fs w).
  destruct (os.WriteFile (fs w) certFile cert os.perm0644) as [fs1 [e|]] eqn:Hw1; [done|].
  apply WriteFile_written in Hw1 as [perm1 ->].
  destruct (os.WriteFile _ keyFile key os.perm0600) as [fs2 [e|]] eqn:Hw2; [done|].
  apply WriteFile_written in Hw2 as [perm2 ->]. intros _. simpl. split.
  - destruct (decide (keyFile = certFile)) as [->|Hne].
    + rewrite lookup_insert_eq. eauto.
    + rewrite lookup_insert_ne, lookup_insert_eq by done. eauto.
  - rewrite lookup_insert_eq. eauto.
Qed.




(** X9. A successful [New] can be repeated: run again on the world it left,
    it generates nothing, changes nothing and returns the same server. *)
Theorem New_idempotent (cfg : Config) (w w1 : World) (s : RPCServer) :
  New cfg w = (w1, inl s) → New cfg w1 = (w1, inl s).
Proof.
  intros Hnew.
  destruct (decide (fileExists (fs w) (cfg_Cert cfg) = fileExists (fs w) (cfg_Key cfg)))
    as [Heq|Hne]; [|by rewrite (New_partial cfg w Hne) in Hnew].
  destruct (fileExists (fs w) (cfg_Cert cfg)) eqn:Hc; symmetry in Heq.
  - rewrite (New_both cfg w Hc Heq) in Hnew. injection Hnew as <- Hs.
    by rewrite (New_both cfg w Hc Heq), Hs.
  - rewrite (New_neither cfg w Hc Heq) in Hnew.
    pose proof (genCertPair_success (cfg_Cert cfg) (cfg_Key cfg) w) as Hout.
    destruct (genCertPair (cfg_Cert cfg) (cfg_Key cfg) w) as [w2 [e|]]; [done|].
    injection Hnew as -> Hs. simpl in Hout. destruct (Hout eq_refl) as [[f1 H1] [f2 H2]].
    rewrite (New_both cfg w1); [by rewrite Hs|by eapply fileExists_Regular..].
Qed.

(** The value of the Authorization header for a user and a password. *)
Definition basicAuth (user pass : string) : string :=
  "Basic " +:+ base64_EncodeToString (user +:+ ":" +:+ pass).

Definition withAuthorization (r : http.Request) (a : string) : Prop :=
  authorization r = Some a.

(** X10. A server built by [New] with a user and a password admits a
    request whose first Authorization value is [Basic] followed by the
    base64 of [user:pass]: it is then routed, [POST /] to [handleJSON] and
    [GET /ws] to the websocket endpoint. A request without the header, or
    whose first value hashes to something else, gets the 401 reply with the
    challenge, and the server is unchanged. *)
Theorem New_credentials_admit (cfg : Config) (w : World) (s : RPCServer)
    (w' : http.ResponseWriter) (r : http.Request) :
  cfg_User cfg ≠ "" → cfg_Pass cfg ≠ "" →
  (New cfg w).2 = inl s →
  (withAuthorization r (basicAuth (cfg_User cfg) (cfg_Pass cfg)) →
     (http.r_Method r = "POST" → http.r_Path r = "/" →
      ServeHTTP s w' r = handleJSON s w' r)
     ∧ (http.r_Method r = "GET" → http.r_Path r = "/ws" →
        ServeHTTP s w' r = handleWS s w' r))
  ∧ ((∀ a, authorization r = Some a →
           sha256_Sum256 a ≠ sha256_Sum256 (basicAuth (cfg_User cfg) (cfg_Pass cfg))) →
     ServeHTTP s w' r = (unauthorized w', s)).
Proof.
  intros Huser Hpass Hs. destruct (New_authsha cfg w s Hs) as [Hsha Hmux].
  assert (authsha s = sha256_Sum256 (basicAuth (cfg_User cfg) (cfg_Pass cfg))) as Hauth.
  { rewrite Hsha. unfold newAuthSHA, basicAuth. case_decide as Hd; [done|].
    destruct Hd. by split. }
  rewrite (ServeHTTP_newMux s Hmux). split.
  - intros Ha. rewrite (authMiddleware_admits _ s w' r _ Ha) by done.
    unfold routeRequest, newMux. simpl. split; intros -> ->; reflexivity.
  - intros Hbad. apply authMiddleware_rejects. intros a Ha. rewrite Hauth. by apply Hbad.
Qed.

(** The statuses [handleJSON] can reply with. *)
Definition jsonStatuses : list Z :=
  [http.StatusOK; http.StatusBadRequest; http.StatusMethodNotAllowed;
   http.StatusUnprocessableEntity; http.StatusInternalServerError].

Ltac in_statuses :=
  unfold jsonStatuses; repeat (apply elem_of_cons; first [by left | right]).

(** X11. Whatever the request, [handleJSON] writes exactly one body, asks
    for the connection to be closed, and sets one of five statuses; the
    status is 200 exactly when the body is the JSON of an envelope, and
    otherwise the body is a line of plain text. *)
Theorem handleJSON_one_reply (s : RPCServer) (w : http.ResponseWriter) (r : http.Request) :
  http.w_Status w = None →
  ∃ c code,
    http.w_Body (handleJSON s w r).1 = http.w_Body w ++ [c]
    ∧ http.w_Header (handleJSON s w r).1 !! "Connection" = Some ["close"]
    ∧ http.w_Status (handleJSON s w r).1 = Some code
    ∧ code ∈ jsonStatuses
    ∧ (code = http.StatusOK ↔ ∃ m, c = http.JSONBody m).
Proof.
  intros Hstatus. unfold handleJSON.
  assert (∀ (w0 : http.ResponseWriter) (c : http.chunk) (code : Z) (sout : RPCServer),
            http.w_Body w0 = http.w_Body w ++ [c] →
            http.w_Header w0 !! "Connection" = Some ["close"] →
            http.w_Status w0 = Some code →
            code ∈ jsonStatuses →
            (code = http.StatusOK ↔ ∃ m, c = http.JSONBody m) →
            ∃ c code,
              http.w_Body (w0, sout).1 = http.w_Body w ++ [c]
              ∧ http.w_Header (w0, sout).1 !! "Connection" = Some ["close"]
              ∧ http.w_Status (w0, sout).1 = Some code
              ∧ code ∈ jsonStatuses
              ∧ (code = http.StatusOK ↔ ∃ m, c = http.JSONBody m)) as Hreply.
  { intros w0 c code sout ? ? ? ? ?. exists c, code. done. }
  assert (∀ (msg : string) (code : Z) (sout : RPCServer),
            code ∈ jsonStatuses → code ≠ http.StatusOK →
            ∃ c code',
              http.w_Body (http.Error (jsonHeaders w) msg code, sout).1 = http.w_Body w ++ [c]
              ∧ http.w_Header (http.Error (jsonHeaders w) msg code, sout).1 !! "Connection"
                = Some ["close"]
              ∧ http.w_Status (http.Error (jsonHeaders w) msg code, sout).1 = Some code'
              ∧ code' ∈ jsonStatuses
              ∧ (code' = http.StatusOK ↔ ∃ m, c = http.JSONBody m)) as Herror.
  { intros msg code sout Hin Hne.
    apply (Hreply _ (http.TextBody msg) code); simpl; [done| |by rewrite Hstatus|done|].
    - rewrite !lookup_insert_ne by done. apply lookup_insert_eq.
    - split; [done | by intros [m ?]]. }
  change (http.Header_Set "Content-Type" "application/json"
            (http.Header_Set "Connection" "close" w)) with (jsonHeaders w).
  destruct (http.r_Body r) as [body|err].
  - destruct (json_Unmarshal body) as [req|].
    + case_decide.
      * apply Herror; [|done]. in_statuses.
      * unfold parseHTTPRequest. destruct (handleRequest s req) as [payload s'].
        destruct (msgjson.NewResponse _ _ _) as [resp|e].
        -- apply (Hreply _ (http.JSONBody resp) http.StatusOK); simpl;
             [done| |by rewrite Hstatus|in_statuses|].
           ++ rewrite !lookup_insert_ne by done. apply lookup_insert_eq.
           ++ split; [by eexists | done].
        -- apply Herror; [|done]. in_statuses.
    + apply Herror; [|done]. in_statuses.
  - apply Herror; [|done]. in_statuses.
Qed.

End WithEnvironment.

(** ** A concrete environment

    The theorems above hold for every environment. For examples we fix a
    small one; the stand-ins for the library functions are not the real
    ones (a digest that copies the first 32 bytes, an identity encoding, a
    decoder that knows a handful of wire texts). *)
Module Sample.

(** JSON texts are written with apostrophes for the double quotes. *)
Definition jsonText (s : string) : string :=
  string_of_list_ascii
    ((λ c, if Ascii.eqb c "'"%char then ascii_of_nat 34 else c) <$> list_ascii_of_string s).

Definition sum256 (s : string) : list Z :=
  take 32 (((λ c, Z.of_N (N_of_ascii c)) <$> list_ascii_of_string s) ++ replicate 32 255).

Definition encodeToString (s : string) : string := s.

Definition x509KeyPair (certPEM keyPEM : string) : (string * string) + string :=
  if bool_decide (certPEM ≠ "" ∧ keyPEM ≠ "") then inl (certPEM, keyPEM)
  else inr "tls: failed to find any PEM data in certificate input".

Definition newTLSCertPair (c : curve) (org : string) (validUntil : Z)
    (extraHosts : list string) : (string * string) + string :=
  inl ("CERTIFICATE of " +:+ org, "EC PRIVATE KEY").

Definition now : Z := 1600000000 * Second.

Definition request (id : Z) (route payload : string) : msgjson.Message :=
  {| msgjson.msg_Type := msgjson.Request; msgjson.msg_Route := route;
     msgjson.msg_ID := id; msgjson.msg_Payload := msgjson.RawJSON payload |}.

(** The wire texts the decoder knows. *)
Definition wire : list (string * msgjson.Message) :=
  [ (jsonText "{'id':1,'route':'version','type':1,'payload':[]}", request 1 "version" "[]");
    (jsonText "{'id':2,'route':'bogus','type':1,'payload':[]}", request 2 "bogus" "[]");
    (jsonText "{'id':3,'route':'version','type':1,'payload':7}", request 3 "version" "7");
    (jsonText "{'id':4,'type':1,'payload':[]}", request 4 "" "[]");
    (jsonText "{'id':5,'type':2,'payload':{}}",
       {| msgjson.msg_Type := msgjson.Response; msgjson.msg_Route := "";
          msgjson.msg_ID := 5; msgjson.msg_Payload := msgjson.RawJSON "{}" |});
    (jsonText "{'id':6,'route':'init','type':1,'payload':[]}", request 6 "init" "[]");
    (jsonText "{'id':0,'route':'version','type':1,'payload':[]}", request 0 "version" "[]");
    (jsonText "{'id':0,'route':'bogus','type':1,'payload':[]}", request 0 "bogus" "[]") ].

Definition jsonUnmarshal (body : string) : option msgjson.Message :=
  snd <$> List.find (λ e, bool_decide (e.1 = body)) wire.

Definition unmarshal (req : msgjson.Message) : option (list string) :=
  match msgjson.msg_Payload req with
  | msgjson.RawJSON "[]" => Some []
  | _ => None
  end.

Definition RPCParseError : Z := 1.
Definition RPCUnknownRoute : Z := 2.

Abbreviation server := (RPCServer unit unit unit (string * string)).

(** A route that returns a result and one that returns an error of the
    core. *)
Definition handleVersion : server → list string → msgjson.ResponsePayload * server :=
  λ s _, ({| msgjson.rp_Result := Some (jsonText "{'major':0,'minor':0,'patch':0}");
             msgjson.rp_Error := None |}, s).

Definition handleInit : server → list string → msgjson.ResponsePayload * server :=
  λ s _, ({| msgjson.rp_Result := None;
             msgjson.rp_Error := Some (msgjson.NewError 5 "already initialized") |}, s).

Definition routes : gmap string (server → list string → msgjson.ResponsePayload * server) :=
  <["version" := handleVersion]> (<["init" := handleInit]> ∅).

(** A handler that fills in both fields of its payload, in a table of its
    own. *)
Definition handleBoth : server → list string → msgjson.ResponsePayload * server :=
  λ s _, ({| msgjson.rp_Result := Some "true";
             msgjson.rp_Error := Some (msgjson.NewError 5 "already initialized") |}, s).

Definition routesBoth : gmap string (server → list string → msgjson.ResponsePayload * server) :=
  <["both" := handleBoth]> routes.

Definition handleWS : server → http.ResponseWriter → http.Request → http.ResponseWriter * server :=
  λ s w _, (w, s).

Definition New : Config unit → World → World * (server + error) :=
  Server.New unit unit unit (string * string) sum256 encodeToString x509KeyPair
             newTLSCertPair now.

Definition handleRequest : server → msgjson.Message → msgjson.ResponsePayload * server :=
  Server.handleRequest unit unit unit (string * string) (list string) unmarshal
                       RPCUnknownRoute RPCParseError routes.

Definition parseHTTPRequest :
    server → http.ResponseWriter → msgjson.Message → http.ResponseWriter * server :=
  Server.parseHTTPRequest unit unit unit (string * string) (list string) unmarshal
                          RPCUnknownRoute RPCParseError routes.

Definition handleJSON :
    server → http.ResponseWriter → http.Request → http.ResponseWriter * server :=
  Server.handleJSON unit unit unit (string * string) (list string) jsonUnmarshal unmarshal
                    RPCUnknownRoute RPCParseError routes.

Definition ServeHTTP :
    server → http.ResponseWriter → http.Request → http.ResponseWriter * server :=
  Server.ServeHTTP unit unit unit (string * string) (list string) sum256 jsonUnmarshal
                   unmarshal RPCUnknownRoute RPCParseError routes handleWS.

Definition cfg : Config unit :=
  {| cfg_Core := (); cfg_Addr := "127.0.0.1:5757";
     cfg_User := "user"; cfg_Pass := "pass";
     cfg_Cert := "rpc.cert"; cfg_Key := "rpc.key" |}.

(** A configuration that names one file for the certificate and the key. *)
Definition onePath (path : string) : Config unit :=
  {| cfg_Core := (); cfg_Addr := "127.0.0.1:5757";
     cfg_User := "user"; cfg_Pass := "pass";
     cfg_Cert := path; cfg_Key := path |}.

(** The same configuration without a user. *)
Definition cfgNoUser : Config unit := withCredentials unit cfg "" "pass".

Definition emptyWorld : World :=
  {| fs := {| os.nodes := ∅; os.faults := ∅ |}; logs := [] |}.

Definition regular (data : string) (perm : Z) : os.node :=
  os.Regular {| os.f_data := data; os.f_perm := perm |}.

(** A world with the pair in place, and one with the certificate only. *)
Definition pairWorld : World :=
  {| fs := {| os.nodes := <["rpc.cert" := regular "CERT" os.perm0644]>
                          (<["rpc.key" := regular "KEY" os.perm0600]> ∅);
              os.faults := ∅ |};
     logs := [] |}.

Definition certOnlyWorld : World :=
  {| fs := {| os.nodes := <["rpc.cert" := regular "CERT" os.perm0644]> ∅;
              os.faults := ∅ |};
     logs := [] |}.

Definition theServer : server :=
  builtServer unit unit unit (string * string) sum256 encodeToString cfg ("CERT", "KEY").

Definition serverNoUser : server :=
  builtServer unit unit unit (string * string) sum256 encodeToString cfgNoUser ("CERT", "KEY").

Definition post (auth : list string) (body : string) : http.Request :=
  {| http.r_Method := "POST"; http.r_Path := "/";
     http.r_Header := if auth is [] then ∅ else {["Authorization" := auth]};
     http.r_RemoteAddr := "127.0.0.1:40000";
     http.r_Body := inl body |}.

End Sample.

(** ** The claims at the concrete environment *)

Example version_over_https :
  http.w_Body (Sample.handleJSON Sample.theServer http.newWriter
     (Sample.post [] (Sample.jsonText "{'id':1,'route':'version','type':1,'payload':[]}"))).1
  = [http.JSONBody
       {| msgjson.msg_Type := msgjson.Response; msgjson.msg_Route := "";
          msgjson.msg_ID := 1;
          msgjson.msg_Payload := msgjson.ResponseJSON
            {| msgjson.rp_Result := Some (Sample.jsonText "{'major':0,'minor':0,'patch':0}");
               msgjson.rp_Error := None |} |}].
Proof. vm_compute. reflexivity. Qed.

Example init_error_over_https :
  http.w_Body (Sample.handleJSON Sample.theServer http.newWriter
     (Sample.post [] (Sample.jsonText "{'id':6,'route':'init','type':1,'payload':[]}"))).1
  = [http.JSONBody
       {| msgjson.msg_Type := msgjson.Response; msgjson.msg_Route := "";
          msgjson.msg_ID := 6;
          msgjson.msg_Payload := msgjson.ResponseJSON
            {| msgjson.rp_Result := None;
               msgjson.rp_Error := Some (msgjson.NewError 5 "already initialized") |} |}].
Proof. vm_compute. reflexivity. Qed.

Example bad_params_over_https :
  http.w_Body (Sample.handleJSON Sample.theServer http.newWriter
     (Sample.post [] (Sample.jsonText "{'id':3,'route':'version','type':1,'payload':7}"))).1
  = [http.JSONBody
       {| msgjson.msg_Type := msgjson.Response; msgjson.msg_Route := "";
          msgjson.msg_ID := 3;
          msgjson.msg_Payload := msgjson.ResponseJSON
            {| msgjson.rp_Result := None;
               msgjson.rp_Error :=
                 Some (msgjson.NewError Sample.RPCParseError "unable to unmarshal request") |} |}].
Proof. vm_compute. reflexivity. Qed.

Example response_over_https :
  let w := (Sample.handleJSON Sample.theServer http.newWriter
              (Sample.post [] (Sample.jsonText "{'id':5,'type':2,'payload':{}}"))).1 in
  http.w_Status w = Some http.StatusMethodNotAllowed
  ∧ http.w_Body w = [http.TextBody "Responses not accepted"].
Proof. vm_compute. split; reflexivity. Qed.

(** The dispatcher passes on what the handler returns: a payload with a
    result and an error is written with both. *)
Example both_relayed :
  http.w_Body
    (Server.parseHTTPRequest unit unit unit (string * string) (list string) Sample.unmarshal
       Sample.RPCUnknownRoute Sample.RPCParseError Sample.routesBoth
       Sample.theServer http.newWriter (Sample.request 8 "both" "[]")).1
  = [http.JSONBody
       {| msgjson.msg_Type := msgjson.Response; msgjson.msg_Route := "";
          msgjson.msg_ID := 8;
          msgjson.msg_Payload := msgjson.ResponseJSON
            {| msgjson.rp_Result := Some "true";
               msgjson.rp_Error := Some (msgjson.NewError 5 "already initialized") |} |}].
Proof. vm_compute. reflexivity. Qed.



(** With one path for both files, the key is written into the file created
    for the certificate and inherits its permissions. *)
Example new_with_one_path :
  os.nodes (fs (Sample.New (Sample.onePath "rpc.pem") Sample.emptyWorld).1) !! "rpc.pem"
  = Some (Sample.regular "EC PRIVATE KEY" os.perm0644).
Proof. vm_compute. reflexivity. Qed.

Example new_with_cert_only :
  Sample.New Sample.cfg Sample.certOnlyWorld = (Sample.certOnlyWorld, inr MissingCertPairError).
Proof. vm_compute. reflexivity. Qed.

Example new_with_pair :
  Sample.New Sample.cfg Sample.pairWorld = (Sample.pairWorld, inl Sample.theServer).
Proof. vm_compute. reflexivity. Qed.



(** C3 as stated fails on the code: a body that is not an envelope is
    answered by [http.Error], plain text with status 422, and not by a
    structured error Response. *)
Lemma handleJSON_malformed_body_unstructured :
  Sample.jsonUnmarshal "{notjson" = None
  ∧ (Sample.handleJSON Sample.theServer http.newWriter (Sample.post [] "{notjson")).1
    = http.Error (jsonHeaders http.newWriter) "JSON decode error"
                 http.StatusUnprocessableEntity
  ∧ ¬ structuredError
        (Sample.handleJSON Sample.theServer http.newWriter (Sample.post [] "{notjson")).1.
Proof.
  split; [reflexivity|]. split; [reflexivity|].
  intros (resp & p & code & Hbody & _). vm_compute in Hbody. discriminate.
Qed.

(** [handleJSON_protocol_errors] at a malformed body and at an unknown
    route. *)
Lemma handleJSON_protocol_errors_witness :
  Sample.handleJSON Sample.theServer http.newWriter (Sample.post [] "{notjson")
  = (http.Error (jsonHeaders http.newWriter) "JSON decode error"
                http.StatusUnprocessableEntity, Sample.theServer)
  ∧ structuredError
      (Sample.handleJSON Sample.theServer http.newWriter
         (Sample.post [] (Sample.jsonText "{'id':2,'route':'bogus','type':1,'payload':[]}"))).1.
Proof.
  split.
  - apply (handleJSON_protocol_errors unit unit unit (string * string) (list string)
             Sample.jsonUnmarshal Sample.unmarshal Sample.RPCUnknownRoute
             Sample.RPCParseError Sample.routes Sample.theServer
             (Sample.post [] "{notjson") "{notjson"); reflexivity.
  - apply (proj2 (proj2
             (handleJSON_protocol_errors unit unit unit (string * string) (list string)
                Sample.jsonUnmarshal Sample.unmarshal Sample.RPCUnknownRoute
                Sample.RPCParseError Sample.routes Sample.theServer
                (Sample.post []
                   (Sample.jsonText "{'id':2,'route':'bogus','type':1,'payload':[]}"))
                (Sample.jsonText "{'id':2,'route':'bogus','type':1,'payload':[]}")
                eq_refl)) (Sample.request 2 "bogus" "[]")).
    + vm_compute. reflexivity.
    + reflexivity.
    + simpl. lia.
    + right. left. vm_compute. reflexivity.
Defined.

(** C4 as stated fails on the code: without a user, [New] succeeds. *)
Lemma New_succeeds_without_user :
  cfg_User unit Sample.cfgNoUser = ""
  ∧ ∃ s, (Sample.New Sample.cfgNoUser Sample.pairWorld).2 = inl s.
Proof. split; [reflexivity|]. eexists. vm_compute. reflexivity. Qed.

(** [New_without_credentials] at the configuration without a user: a
    request without an Authorization header is refused. *)
Lemma New_without_credentials_witness :
  (Sample.New Sample.cfgNoUser Sample.pairWorld).2 = inl Sample.serverNoUser
  ∧ authsha unit unit unit (string * string) Sample.serverNoUser = zeroSHA
  ∧ Sample.ServeHTTP Sample.serverNoUser http.newWriter (Sample.post [] "{notjson")
    = (unauthorized http.newWriter, Sample.serverNoUser).
Proof.
  assert ((Sample.New Sample.cfgNoUser Sample.pairWorld).2 = inl Sample.serverNoUser)
    as Hs by (vm_compute; reflexivity).
  split; [exact Hs|].
  destruct (New_without_credentials unit unit unit (string * string) (list string)
              Sample.sum256 Sample.encodeToString Sample.x509KeyPair
              Sample.newTLSCertPair Sample.now Sample.jsonUnmarshal Sample.unmarshal
              Sample.RPCUnknownRoute Sample.RPCParseError Sample.routes Sample.handleWS
              Sample.cfgNoUser Sample.pairWorld) as [_ Hserver].
  - left. reflexivity.
  - destruct (Hserver Sample.serverNoUser Hs) as [Hzero Hreject]. split; [exact Hzero|].
    apply Hreject. intros a Ha. discriminate Ha.
Defined.

(** C5 as stated fails on the code: the generated certificate is written
    with permissions 0644, readable by the group and by others. *)
Lemma New_writes_certificate_0644 :
  fileExists (fs Sample.emptyWorld) "rpc.cert" = false
  ∧ fileExists (fs Sample.emptyWorld) "rpc.key" = false
  ∧ ∃ f, os.nodes (fs (Sample.New Sample.cfg Sample.emptyWorld).1) !! "rpc.cert"
         = Some (os.Regular f)
         ∧ os.f_perm f = os.perm0644
         ∧ os.ownerOnly (os.f_perm f) = false.
Proof.
  split; [reflexivity|]. split; [reflexivity|].
  eexists. split; [vm_compute; reflexivity|]. split; reflexivity.
Qed.

(** [New_cert_pair] at an empty file system. *)
Lemma New_cert_pair_witness :
  os.nodes (fs (Sample.New Sample.cfg Sample.emptyWorld).1) !! "rpc.key"
  = Some (Sample.regular "EC PRIVATE KEY" os.perm0600)
  ∧ os.nodes (fs (Sample.New Sample.cfg Sample.emptyWorld).1) !! "rpc.cert"
    = Some (Sample.regular "CERTIFICATE of dcrdex autogenerated cert" os.perm0644).
Proof.
  destruct (New_cert_pair unit unit unit (string * string) Sample.sum256
              Sample.encodeToString Sample.x509KeyPair Sample.newTLSCertPair Sample.now
              Sample.cfg Sample.emptyWorld) as (_ & _ & Hgen).
  destruct (Hgen eq_refl eq_refl) with
    (certPEM := "CERTIFICATE of dcrdex autogenerated cert") (keyPEM := "EC PRIVATE KEY")
    as (Hcert & Hkey & _).
  - simpl. discriminate.
  - apply not_elem_of_dom. reflexivity.
  - apply not_elem_of_dom. reflexivity.
  - reflexivity.
  - split; [exact Hkey | exact Hcert].
Defined.

(** ** The further properties at the concrete environment *)

(** A world in which the key file cannot be created, one in which its
    device takes six bytes, and the world and the server that [New] leaves
    on an empty file system. *)
Definition keyBlockedWorld : World :=
  {| fs := {| os.nodes := ∅; os.faults := {["rpc.key" := os.NoCreate]} |}; logs := [] |}.

Definition keyShortWorld : World :=
  {| fs := {| os.nodes := ∅; os.faults := {["rpc.key" := os.Short 6]} |}; logs := [] |}.

Definition generatedWorld : World := (Sample.New Sample.cfg Sample.emptyWorld).1.

Definition generatedServer : Sample.server :=
  builtServer unit unit unit (string * string) Sample.sum256 Sample.encodeToString
    Sample.cfg ("CERTIFICATE of dcrdex autogenerated cert", "EC PRIVATE KEY").

Example key_blocked :
  Sample.New Sample.cfg keyBlockedWorld =
  ({| fs := fs keyBlockedWorld; logs := ["Generating TLS certificates..."] |},
   inr (PathError os.EACCES)).
Proof. vm_compute. reflexivity. Qed.

(** A key that does not fit: its first six bytes stay behind, the
    certificate is removed. *)
Example key_cut_short :
  Sample.New Sample.cfg keyShortWorld =
  ({| fs := {| os.nodes := {["rpc.key" := Sample.regular "EC PRI" os.perm0600]};
               os.faults := {["rpc.key" := os.Short 6]} |};
      logs := ["Generating TLS certificates..."] |},
   inr (PathError os.ENOSPC)).
Proof. vm_compute. reflexivity. Qed.



(** [New_idempotent] after a generation. *)
Lemma New_idempotent_witness :
  Sample.New Sample.cfg generatedWorld = (generatedWorld, inl generatedServer).
Proof.
  apply (New_idempotent unit unit unit (string * string) Sample.sum256
           Sample.encodeToString Sample.x509KeyPair Sample.newTLSCertPair Sample.now
           Sample.cfg Sample.emptyWorld).
  vm_compute. reflexivity.
Defined.

(** [New_credentials_admit] for the user and the password of the sample. *)
Lemma New_credentials_admit_witness :
  Sample.ServeHTTP Sample.theServer http.newWriter
    (Sample.post ["Basic user:pass"] "{notjson")
  = Sample.handleJSON Sample.theServer http.newWriter
      (Sample.post ["Basic user:pass"] "{notjson").
Proof.
  destruct (New_credentials_admit unit unit unit (string * string) (list string)
              Sample.sum256 Sample.encodeToString Sample.x509KeyPair
              Sample.newTLSCertPair Sample.now Sample.jsonUnmarshal Sample.unmarshal
              Sample.RPCUnknownRoute Sample.RPCParseError Sample.routes Sample.handleWS
              Sample.cfg Sample.pairWorld Sample.theServer http.newWriter
              (Sample.post ["Basic user:pass"] "{notjson")) as [Hadmit _].
  - simpl. discriminate.
  - simpl. discriminate.
  - vm_compute. reflexivity.
  - destruct Hadmit as [Hpost _]; [reflexivity|].
    apply Hpost; reflexivity.
Defined.

(** [handleJSON_one_reply] at a body that is not JSON. *)
Lemma handleJSON_one_reply_witness :
  ∃ c code,
    http.w_Body (Sample.handleJSON Sample.theServer http.newWriter
                   (Sample.post [] "{notjson")).1 = http.w_Body http.newWriter ++ [c]
    ∧ http.w_Status (Sample.handleJSON Sample.theServer http.newWriter
                       (Sample.post [] "{notjson")).1 = Some code
    ∧ code ∈ jsonStatuses.
Proof.
  destruct (handleJSON_one_reply unit unit unit (string * string) (list string)
              Sample.jsonUnmarshal Sample.unmarshal Sample.RPCUnknownRoute
              Sample.RPCParseError Sample.routes Sample.theServer http.newWriter
              (Sample.post [] "{notjson")) as (c & code & Hbody & _ & Hstatus & Hin & _).
  - reflexivity.
  - exists c, code. split; [exact Hbody|]. split; [exact Hstatus | exact Hin].
Defined.

End Server.

(** * rpcserver.go: the market syncer

    [marketSyncer.Run] loops on a [select] over the feed channel and the
    context. A run is driven by the cases the scheduler finds ready, in
    order; when they are used up the goroutine is blocked in [select]. A
    receive from a closed channel delivers the zero value of the element
    type, so it is a [FeedC] event like any other. *)
Module Syncer.

(** Why [Run] stopped. The first three are the [break out] of the source;
    [NilUpdate] is the panic of [update.Action] on a nil update. *)
Inductive cause := EncodeFailed | SendFailed | Cancelled | NilUpdate.

Inductive status := Blocked | Exited (c : cause).

(** [core.BookFeed] as the syncer uses it: [C] is the source of the [FeedC]
    events, and [Close] is known by the number of times it was called. *)
Record BookFeed := { closed : nat }.

Definition Close (f : BookFeed) : BookFeed := {| closed := S (closed f) |}.

Section Run.

(** The element type of the feed channel and the client session, with the
    operations the loop calls: the [Action] field of an update ([None] when
    the update is a nil pointer), [msgjson.NewNotification], and the
    client's [Send]. *)
Variables Update wsClient : Type.
Variable Action : Update → option string.
Variable NewNotification : string → Update → msgjson.Message + string.
Variable Send : wsClient → msgjson.Message → wsClient * option string.

Inductive ready :=
| FeedC (update : Update)
| CtxDone.

Record marketSyncer := {
  feed : BookFeed;
  cl : wsClient
}.

Definition withClient (m : marketSyncer) (c : wsClient) : marketSyncer :=
  {| feed := feed m; cl := c |}.

(** The labelled [for] loop; the log lines are returned with the syncer. *)
Fixpoint loop (m : marketSyncer) (lg : list string) (evs : list ready)
    : marketSyncer * list string * status :=
  match evs with
  | [] => (m, lg, Blocked)
  | CtxDone :: _ => (m, lg, Exited Cancelled)
  | FeedC update :: evs' =>
      match Action update with
      | None => (m, lg, Exited NilUpdate)
      | Some action =>
          match NewNotification action update with
          | inr err =>
              (m, lg ++ ["error encoding notification message: " +:+ err],
               Exited EncodeFailed)
          | inl note =>
              match Send (cl m) note with
              | (c, Some _) =>
                  (withClient m c, lg ++ ["send error. ending market feed"],
                   Exited SendFailed)
              | (c, None) => loop (withClient m c) lg evs'
              end
          end
      end
  end.

(** [defer m.feed.Close()]: the call runs when [Run] leaves, by return or by
    panic, and not while it is blocked. *)
Definition Run (m : marketSyncer) (lg : list string) (evs : list ready)
    : marketSyncer * list string * status :=
  match loop m lg evs with
  | (m', lg', Blocked) => (m', lg', Blocked)
  | (m', lg', Exited c) => ({| feed := Close (feed m'); cl := cl m' |}, lg', Exited c)
  end.

(** ** Properties *)

Lemma loop_feed (m : marketSyncer) (lg : list string) (evs : list ready) :
  feed (loop m lg evs).1.1 = feed m.
Proof.
  revert m lg. induction evs as [|[update|] evs IH]; intros m lg; simpl; [done| |done].
  destruct (Action update) as [action|]; [|done].
  destruct (NewNotification action update) as [note|err]; [|done].
  destruct (Send (cl m) note) as [c [e|]]; [done|].
  by rewrite IH.
Qed.

Lemma loop_cancelled (m : marketSyncer) (lg : list string) (evs : list ready) :
  CtxDone ∈ evs → (loop m lg evs).2 ≠ Blocked.
Proof.
  revert m lg. induction evs as [|[update|] evs IH]; intros m lg Hin; simpl.
  - by apply elem_of_nil in Hin.
  - apply elem_of_cons in Hin as [?|Hin]; [done|].
    destruct (Action update) as [action|]; [|done].
    destruct (NewNotification action update) as [note|err]; [|done].
    destruct (Send (cl m) note) as [c [e|]]; [done|].
    by apply IH.
  - done.
Qed.

Lemma Run_status (m : marketSyncer) (lg : list string) (evs : list ready) :
  (Run m lg evs).2 = (loop m lg evs).2.
Proof. unfold Run. by destruct (loop m lg evs) as [[m' lg'] [|c]]. Qed.

(** The event [ev] ends the run of a syncer whose client is [c], for the
    cause [why]: the context is done; the feed is closed, so that the
    receive delivers a nil update and [update.Action] panics; the
    notification cannot be encoded; or the client refuses it. *)
Inductive ends (c : wsClient) : ready → cause → Prop :=
| ends_cancelled : ends c CtxDone Cancelled
| ends_feed_closed update :
    Action update = None → ends c (FeedC update) NilUpdate
| ends_encode_failed update action err :
    Action update = Some action → NewNotification action update = inr err →
    ends c (FeedC update) EncodeFailed
| ends_send_failed update action note err :
    Action update = Some action → NewNotification action update = inl note →
    (Send c note).2 = Some err →
    ends c (FeedC update) SendFailed.

Lemma loop_app_blocked (m m' : marketSyncer) (lg lg' : list string) (pre post : list ready) :
  loop m lg pre = (m', lg', Blocked) → loop m lg (pre ++ post) = loop m' lg' post.
Proof.
  revert m lg. induction pre as [|[update|] pre IH]; intros m lg; simpl.
  - by intros [= -> ->].
  - destruct (Action update) as [action|]; [|done].
    destruct (NewNotification action update) as [note|err]; [|done].
    destruct (Send (cl m) note) as [c [e|]]; [done|]. apply IH.
  - done.
Qed.

Lemma loop_app_exited (m : marketSyncer) (lg : list string) (pre post : list ready) (c : cause) :
  (loop m lg pre).2 = Exited c → loop m lg (pre ++ post) = loop m lg pre.
Proof.
  revert m lg. induction pre as [|[update|] pre IH]; intros m lg; simpl.
  - done.
  - destruct (Action update) as [action|]; [|done].
    destruct (NewNotification action update) as [note|err]; [|done].
    destruct (Send (cl m) note) as [cl' [e|]]; [done|]. apply IH.
  - done.
Qed.

(** An event that ends the run makes the loop leave, whatever follows. *)
Lemma loop_ends (m : marketSyncer) (lg : list string) (ev : ready) (post : list ready)
    (why : cause) :
  ends (cl m) ev why → (loop m lg (ev :: post)).2 = Exited why.
Proof.
  intros Hends. destruct Hends as [|update Hnil|update action err Ha Hn
                                   |update action note err Ha Hn Hs]; simpl.
  - done.
  - by rewrite Hnil.
  - by rewrite Ha, Hn.
  - rewrite Ha, Hn. destruct (Send (cl m) note) as [c [e|]]; [done|discriminate Hs].
Qed.

(** The loop leaves only at an event that ends the run, after events that
    did not. *)
Lemma loop_exited (m : marketSyncer) (lg : list string) (evs : list ready) (why : cause) :
  (loop m lg evs).2 = Exited why →
  ∃ pre ev post,
    evs = pre ++ ev :: post
    ∧ (loop m lg pre).2 = Blocked
    ∧ ends (cl (loop m lg pre).1.1) ev why.
Proof.
  revert m lg. induction evs as [|[update|] evs IH]; intros m lg; simpl.
  - done.
  - destruct (Action update) as [action|] eqn:Ha.
    + destruct (NewNotification action update) as [note|err] eqn:Hn.
      * destruct (Send (cl m) note) as [c [e|]] eqn:Hs.
        -- intros [= <-]. exists [], (FeedC update), evs. repeat split.
           apply (ends_send_failed _ update action note e); [done..|]. simpl. by rewrite Hs.
        -- intros Hexit. destruct (IH _ _ Hexit) as (pre & ev & post & -> & Hblocked & Hends).
           exists (FeedC update :: pre), ev, post. simpl. rewrite Ha. simpl. rewrite Hn. simpl.
           rewrite Hs. done.
      * intros [= <-]. exists [], (FeedC update), evs. repeat split.
        by apply (ends_encode_failed _ update action err).
    + intros [= <-]. exists [], (FeedC update), evs. repeat split.
      by apply ends_feed_closed.
  - intros [= <-]. exists [], CtxDone, evs. repeat split. apply ends_cancelled.
Qed.

(** C6. In every run of a market syncer the loop itself never releases the
    feed, and [Run] has released it ([feed.Close]) exactly once when it has
    left and not at all while it is blocked in [select]. Each terminal case
    does end the run, after any number of updates that were forwarded and
    whatever becomes ready later: the cancellation of the context, a closed
    feed (the nil update it delivers makes [update.Action] panic), a
    notification that cannot be encoded, and a send that fails. The feed is
    then released exactly once. [Run] leaves in these cases only. *)
Theorem Run_closes_feed_once (m : marketSyncer) (lg : list string) (evs : list ready) :
  closed (feed (loop m lg evs).1.1) = closed (feed m)
  ∧ closed (feed (Run m lg evs).1.1) =
    (closed (feed m) + if (Run m lg evs).2 is Blocked then 0 else 1)%nat
  ∧ (CtxDone ∈ evs → ∃ c, (Run m lg evs).2 = Exited c
                          ∧ closed (feed (Run m lg evs).1.1) = S (closed (feed m)))
  ∧ (∀ pre ev post why,
       evs = pre ++ ev :: post →
       (Run m lg pre).2 = Blocked →
       ends (cl (Run m lg pre).1.1) ev why →
       (Run m lg evs).2 = Exited why
       ∧ closed (feed (Run m lg evs).1.1) = S (closed (feed m)))
  ∧ (∀ why, (Run m lg evs).2 = Exited why →
       ∃ pre ev post,
         evs = pre ++ ev :: post
         ∧ (Run m lg pre).2 = Blocked
         ∧ ends (cl (Run m lg pre).1.1) ev why).
Proof.
  assert (∀ pre, (Run m lg pre).2 = Blocked → Run m lg pre = loop m lg pre) as Hsame.
  { intros pre. unfold Run. by destruct (loop m lg pre) as [[m' lg'] [|c]]. }
  split; [by rewrite loop_feed|].
  split.
  { pose proof (loop_feed m lg evs) as Hfeed.
    unfold Run. destruct (loop m lg evs) as [[m' lg'] [|c]]; simpl in *; rewrite Hfeed; lia. }
  split.
  { pose proof (loop_feed m lg evs) as Hfeed.
    pose proof (loop_cancelled m lg evs) as Hdone.
    unfold Run. destruct (loop m lg evs) as [[m' lg'] [|c]]; simpl in *.
    - intros Hin. by destruct (Hdone Hin).
    - intros _. exists c. split; [done|]. by rewrite Hfeed. }
  split.
  - intros pre ev post why -> Hblocked Hends.
    rewrite (Hsame pre Hblocked) in Hends. rewrite Run_status in Hblocked.
    pose proof (loop_feed m lg pre) as Hfeed.
    destruct (loop m lg pre) as [[m' lg'] st] eqn:Hpre. simpl in *. subst st.
    pose proof (loop_ends m' lg' ev post why Hends) as Hexit.
    pose proof (loop_feed m' lg' (ev :: post)) as Hfeed'.
    unfold Run. rewrite (loop_app_blocked m m' lg lg' pre (ev :: post) Hpre).
    destruct (loop m' lg' (ev :: post)) as [[m'' lg''] st'']. simpl in *. subst st''.
    simpl. split; [done|]. by rewrite Hfeed', Hfeed.
  - intros why Hexit. rewrite Run_status in Hexit.
    destruct (loop_exited m lg evs why Hexit) as (pre & ev & post & -> & Hblocked & Hends).
    exists pre, ev, post. split; [done|].
    rewrite <- Run_status in Hblocked. split; [done|]. by rewrite (Hsame pre Hblocked).
Qed.

(** ** Further properties of the loop *)

(** The update behind the event [ev] is encoded as the notification [note]. *)
Definition encodes (ev : ready) (note : msgjson.Message) : Prop :=
  ∃ update action,
    ev = FeedC update ∧ Action update = Some action
    ∧ NewNotification action update = inl note.

(** The client after the notifications [notes] were sent to it in order,
    when every [Send] returned without an error. *)
Fixpoint delivered (c : wsClient) (notes : list msgjson.Message) : option wsClient :=
  match notes with
  | [] => Some c
  | note :: notes' =>
      match Send c note with
      | (c', None) => delivered c' notes'
      | (_, Some _) => None
      end
  end.

(** X12. Once [Run] has left, nothing that becomes ready later has any
    effect: no further notification is encoded or sent, nothing more is
    logged, and the feed is not closed again. While it is blocked, the
    events that follow are handled from the state it is in. *)
Theorem Run_stops_at_exit (m : marketSyncer) (lg : list string) (pre post : list ready) :
  ((Run m lg pre).2 ≠ Blocked → Run m lg (pre ++ post) = Run m lg pre)
  ∧ ((Run m lg pre).2 = Blocked →
     Run m lg (pre ++ post) = Run (Run m lg pre).1.1 (Run m lg pre).1.2 post).
Proof.
  unfold Run. destruct (loop m lg pre) as [[m' lg'] [|c]] eqn:Hpre; simpl.
  - split; [done|]. intros _. by rewrite (loop_app_blocked m m' lg lg' pre post Hpre).
  - split; [|done]. intros _.
    rewrite (loop_app_exited m lg pre post c); by rewrite Hpre.
Qed.

(** X13. As long as [Run] is blocked in [select], every event so far was a
    feed update, each was encoded and sent to the client successfully, one
    notification per update and in the order of the updates; nothing was
    logged and the feed is still open. *)
Theorem Run_forwards_in_order (m : marketSyncer) (lg : list string) (evs : list ready) :
  (Run m lg evs).2 = Blocked →
  ∃ notes,
    Forall2 encodes evs notes
    ∧ delivered (cl m) notes = Some (cl (Run m lg evs).1.1)
    ∧ (Run m lg evs).1.2 = lg
    ∧ feed (Run m lg evs).1.1 = feed m.
Proof.
  rewrite Run_status. unfold Run.
  revert m. induction evs as [|[update|] evs IH]; intros m; simpl.
  - intros _. exists []. by repeat split.
  - destruct (Action update) as [action|] eqn:Haction; [|done].
    destruct (NewNotification action update) as [note|err] eqn:Hnote; [|done].
    destruct (Send (cl m) note) as [c [e|]] eqn:Hsend; [done|].
    intros Hblocked. destruct (IH (withClient m c) Hblocked) as (notes & Henc & Hcl & Hlg & Hfeed).
    exists (note :: notes). split; [|split].
    + constructor; [|done]. by exists update, action.
    + simpl. by rewrite Hsend.
    + done.
  - done.
Qed.

End Run.

(** ** A concrete syncer: updates are the route names of their
    notifications, the client keeps what it was sent and fails from the
    third message on. *)
Definition sampleAction (update : option string) : option string := update.

Definition sampleNotification (route : string) (update : option string)
    : msgjson.Message + string :=
  if decide (route = "") then inr "empty string not allowed for route of notification"
  else inl {| msgjson.msg_Type := msgjson.Notification; msgjson.msg_Route := route;
              msgjson.msg_ID := 0; msgjson.msg_Payload := msgjson.RawJSON route |}.

Definition sampleSend (c : list msgjson.Message) (note : msgjson.Message)
    : list msgjson.Message * option string :=
  if decide (length c < 2)%nat then (c ++ [note], None)
  else (c, Some "websocket: close sent").

Definition sampleSyncer : marketSyncer (list msgjson.Message) :=
  {| feed := {| closed := 0 |}; cl := [] |}.

Definition sampleRun (evs : list (ready (option string)))
    : marketSyncer (list msgjson.Message) * list string * status :=
  Run (option string) (list msgjson.Message) sampleAction sampleNotification sampleSend
      sampleSyncer [] evs.

Example run_blocked :
  let r := sampleRun [FeedC _ (Some "book_order"); FeedC _ (Some "unbook_order")] in
  r.2 = Blocked ∧ closed (feed _ r.1.1) = 0%nat ∧ length (cl _ r.1.1) = 2%nat.
Proof. vm_compute. done. Qed.

Example run_cancelled :
  let r := sampleRun [FeedC _ (Some "book_order"); CtxDone _; FeedC _ (Some "unbook_order")] in
  r.2 = Exited Cancelled ∧ closed (feed _ r.1.1) = 1%nat ∧ length (cl _ r.1.1) = 1%nat.
Proof. vm_compute. done. Qed.

Example run_send_failed :
  let r := sampleRun [FeedC _ (Some "a"); FeedC _ (Some "b"); FeedC _ (Some "c");
                      FeedC _ (Some "d")] in
  r.2 = Exited SendFailed ∧ closed (feed _ r.1.1) = 1%nat ∧ length (cl _ r.1.1) = 2%nat.
Proof. vm_compute. done. Qed.

Example run_encode_failed :
  let r := sampleRun [FeedC _ (Some ""); CtxDone _] in
  r.2 = Exited EncodeFailed ∧ closed (feed _ r.1.1) = 1%nat.
Proof. vm_compute. done. Qed.

Example run_feed_closed :
  let r := sampleRun [FeedC _ (Some "book_order"); FeedC _ None; FeedC _ None] in
  r.2 = Exited NilUpdate ∧ closed (feed _ r.1.1) = 1%nat.
Proof. vm_compute. done. Qed.

(** [Run_closes_feed_once] at a run that is cancelled after one update, and
    at one whose third send fails. *)
Lemma Run_closes_feed_once_witness :
  (∃ c, (sampleRun [FeedC _ (Some "book_order"); CtxDone _]).2 = Exited c
        ∧ closed (feed _ (sampleRun [FeedC _ (Some "book_order"); CtxDone _]).1.1) = 1%nat)
  ∧ (sampleRun [FeedC _ (Some "a"); FeedC _ (Some "b"); FeedC _ (Some "c");
                FeedC _ (Some "d")]).2 = Exited SendFailed
  ∧ closed (feed _ (sampleRun [FeedC _ (Some "a"); FeedC _ (Some "b"); FeedC _ (Some "c");
                               FeedC _ (Some "d")]).1.1) = 1%nat.
Proof.
  split.
  - apply (Run_closes_feed_once (option string) (list msgjson.Message) sampleAction
             sampleNotification sampleSend sampleSyncer []
             [FeedC _ (Some "book_order"); CtxDone _]).
    apply elem_of_cons. right. apply elem_of_cons. by left.
  - destruct (Run_closes_feed_once (option string) (list msgjson.Message) sampleAction
                sampleNotification sampleSend sampleSyncer []
                [FeedC _ (Some "a"); FeedC _ (Some "b"); FeedC _ (Some "c");
                 FeedC _ (Some "d")]) as (_ & _ & _ & Hends & _).
    apply (Hends [FeedC _ (Some "a"); FeedC _ (Some "b")] (FeedC _ (Some "c"))
                 [FeedC _ (Some "d")] SendFailed).
    + reflexivity.
    + reflexivity.
    + apply (ends_send_failed _ _ sampleAction sampleNotification sampleSend _
               (Some "c") "c"
               {| msgjson.msg_Type := msgjson.Notification; msgjson.msg_Route := "c";
                  msgjson.msg_ID := 0; msgjson.msg_Payload := msgjson.RawJSON "c" |}
               "websocket: close sent"); reflexivity.
Defined.

(** [Run_stops_at_exit] after a cancellation. *)
Lemma Run_stops_at_exit_witness :
  sampleRun ([FeedC _ (Some "book_order"); CtxDone _] ++ [FeedC _ (Some "unbook_order")])
  = sampleRun [FeedC _ (Some "book_order"); CtxDone _].
Proof.
  apply (Run_stops_at_exit (option string) (list msgjson.Message) sampleAction
           sampleNotification sampleSend sampleSyncer []
           [FeedC _ (Some "book_order"); CtxDone _] [FeedC _ (Some "unbook_order")]).
  discriminate.
Defined.

(** [Run_forwards_in_order] at two updates. *)
Lemma Run_forwards_in_order_witness :
  ∃ notes,
    Forall2 (encodes (option string) sampleAction sampleNotification)
      [FeedC _ (Some "book_order"); FeedC _ (Some "unbook_order")] notes
    ∧ delivered (list msgjson.Message) sampleSend [] notes
      = Some (cl _ (sampleRun [FeedC _ (Some "book_order"); FeedC _ (Some "unbook_order")]).1.1).
Proof.
  destruct (Run_forwards_in_order (option string) (list msgjson.Message) sampleAction
              sampleNotification sampleSend sampleSyncer []
              [FeedC _ (Some "book_order"); FeedC _ (Some "unbook_order")])
    as (notes & Henc & Hcl & _).
  - reflexivity.
  - exists notes. split; [exact Henc | exact Hcl].
Defined.

End Syncer.

(** * The reconnecting transport (package comms, type wsConn)

    Of this component the sources hold only its test, [TestWsConn]; the
    definitions below follow the specification of the transport and the
    calls the test makes ([NextID], [MessageSource], [respHandler]). *)
Module WsConn.

Section Transport.

(** [msgjson.DecodeMessage]: [None] when the bytes are not an envelope. *)
Variable DecodeMessage : string → option msgjson.Message.

(** The response handlers registered by [Request], known by a name. *)
Variable handler : Type.

(** Modelled from the spec: the state of a [wsConn], which is declared in a
    file that is not among the sources. It has the counter of the
    identifier generator (64 bits, the first identifier being 1), the link
    state, the pending request table from identifier to response handler,
    the stream of inbound messages given out by [MessageSource], in the
    order received, the handler calls made so far, and the log. *)
Record wsConn := {
  reqID : Z;
  connected : bool;
  respHandlers : gmap Z handler;
  readCh : list msgjson.Message;
  called : list (handler * msgjson.Message);
  logs : list string
}.

(** Modelled from the spec: a new [wsConn]; its generator has emitted
    nothing, so that the first identifier is 1. *)
Definition newWsConn : wsConn :=
  {| reqID := 0; connected := true; respHandlers := ∅; readCh := []; called := [];
     logs := [] |}.

(** Modelled from the spec: [NextID], a process-local monotonically
    increasing counter, atomic for concurrent callers; the identifier is an
    unsigned 64-bit integer, as [makeRequest] in the test takes it. *)
Definition NextID (c : wsConn) : wsConn * Z :=
  let id := (reqID c + 1) mod 2 ^ 64 in
  ({| reqID := id; connected := connected c; respHandlers := respHandlers c;
      readCh := readCh c; called := called c; logs := logs c |}, id).

(** Calls of [NextID] by concurrent goroutines: each call is one atomic
    step, so a concurrent execution is a schedule, the list of the callers
    in the order their steps take effect. Each caller gets its identifier. *)
Fixpoint nextIDs {G : Type} (c : wsConn) (schedule : list G) : wsConn * list (G * Z) :=
  match schedule with
  | [] => (c, [])
  | g :: rest =>
      let '(c1, id) := NextID c in
      let '(c2, ids) := nextIDs c1 rest in
      (c2, (g, id) :: ids)
  end.

Definition logLine (c : wsConn) (line : string) : wsConn :=
  {| reqID := reqID c; connected := connected c; respHandlers := respHandlers c;
     readCh := readCh c; called := called c; logs := logs c ++ [line] |}.

(** Modelled from the spec: what the read pump does with one frame. A frame
    that fails to parse as a valid envelope is logged and dropped. A
    Response is matched by identifier against the pending table and, if
    found, removed and delivered to its handler; an unmatched Response is
    dropped. A Request or Notification is delivered to the message-source
    stream. *)
Definition readFrame (c : wsConn) (frame : string) : wsConn :=
  match DecodeMessage frame with
  | None => logLine c "error decoding message"
  | Some msg =>
      if decide (msgjson.msg_Type msg = msgjson.Response) then
        match respHandlers c !! msgjson.msg_ID msg with
        | Some h =>
            {| reqID := reqID c; connected := connected c;
               respHandlers := delete (msgjson.msg_ID msg) (respHandlers c);
               readCh := readCh c; called := called c ++ [(h, msg)]; logs := logs c |}
        | None => c
        end
      else if decide (msgjson.msg_Type msg = msgjson.Request
                      ∨ msgjson.msg_Type msg = msgjson.Notification) then
        {| reqID := reqID c; connected := connected c; respHandlers := respHandlers c;
           readCh := readCh c ++ [msg]; called := called c; logs := logs c |}
      else logLine c "error decoding message"
  end.

(** What the socket hands to the read pump: a frame, or a read error. *)
Inductive inbound :=
| Frame (bytes : string)
| ReadError.

(** Modelled from the spec: the read pump, one loop per physical connection.
    It reads frames until a read fails; only then is the physical connection
    torn down (and the reconnect loop takes over). *)
Fixpoint readPump (c : wsConn) (input : list inbound) : wsConn :=
  match input with
  | [] => c
  | Frame bytes :: rest => readPump (readFrame c bytes) rest
  | ReadError :: _ =>
      {| reqID := reqID c; connected := false; respHandlers := respHandlers c;
         readCh := readCh c; called := called c; logs := logs c |}
  end.

(** ** Properties of the read pump *)

(** Two connections agree but for their logs. *)
Definition sameButLog (c1 c2 : wsConn) : Prop :=
  reqID c1 = reqID c2 ∧ connected c1 = connected c2
  ∧ respHandlers c1 = respHandlers c2 ∧ readCh c1 = readCh c2 ∧ called c1 = called c2.

Lemma sameButLog_refl (c : wsConn) : sameButLog c c.
Proof. by repeat split. Qed.

Lemma logLine_same (c : wsConn) (line : string) : sameButLog (logLine c line) c.
Proof. by repeat split. Qed.

Lemma readFrame_same (c1 c2 : wsConn) (frame : string) :
  sameButLog c1 c2 → sameButLog (readFrame c1 frame) (readFrame c2 frame).
Proof.
  intros (Hid & Hconn & Hresp & Hread & Hcalled). unfold readFrame.
  destruct (DecodeMessage frame) as [msg|]; [|by repeat split].
  case_decide.
  - rewrite Hresp. destruct (respHandlers c2 !! msgjson.msg_ID msg);
      repeat split; simpl; congruence.
  - case_decide; repeat split; simpl; congruence.
Qed.

Lemma readPump_same (c1 c2 : wsConn) (input : list inbound) :
  sameButLog c1 c2 → sameButLog (readPump c1 input) (readPump c2 input).
Proof.
  revert c1 c2. induction input as [|[bytes|] input IH]; intros c1 c2 Hsame; simpl.
  - done.
  - by apply IH, readFrame_same.
  - destruct Hsame as (? & ? & ? & ? & ?). by repeat split.
Qed.

Lemma readFrame_malformed (c : wsConn) (bad : string) :
  DecodeMessage bad = None → readFrame c bad = logLine c "error decoding message".
Proof. unfold readFrame. by intros ->. Qed.

(** C8. On an established connection a frame that does not parse as an
    envelope is logged and dropped: the connection stays up and the pending
    table, the message stream and the handler calls are untouched. The
    frames after it are processed as if it had never arrived; in particular
    a following well-formed Request or Notification is appended to the
    message-source stream, and a following Response with a pending
    identifier is delivered to its handler, which leaves the table. *)
Theorem readPump_drops_malformed (c : wsConn) (bad : string) (rest : list inbound) :
  DecodeMessage bad = None →
  connected c = true →
  connected (readFrame c bad) = true
  ∧ logs (readFrame c bad) = logs c ++ ["error decoding message"]
  ∧ sameButLog (readFrame c bad) c
  ∧ sameButLog (readPump c (Frame bad :: rest)) (readPump c rest)
  ∧ ∀ good msg, DecodeMessage good = Some msg →
      let c' := readPump c [Frame bad; Frame good] in
      connected c' = true
      ∧ (msgjson.msg_Type msg = msgjson.Request ∨ msgjson.msg_Type msg = msgjson.Notification →
         readCh c' = readCh c ++ [msg])
      ∧ (∀ h, msgjson.msg_Type msg = msgjson.Response →
              respHandlers c !! msgjson.msg_ID msg = Some h →
              called c' = called c ++ [(h, msg)]
              ∧ respHandlers c' = delete (msgjson.msg_ID msg) (respHandlers c)).
Proof.
  intros Hbad Hconn. rewrite (readFrame_malformed c bad Hbad).
  split; [done|]. split; [done|]. split; [apply logLine_same|].
  split; [simpl; rewrite (readFrame_malformed c bad Hbad);
          apply readPump_same, logLine_same|].
  intros good msg Hgood. simpl. rewrite (readFrame_malformed c bad Hbad).
  unfold readFrame. rewrite Hgood. simpl. split; [|split].
  - case_decide; [by destruct (respHandlers c !! _)|]. by case_decide.
  - intros Hkind. case_decide as Hresp.
    + unfold msgjson.Request, msgjson.Notification, msgjson.Response in *. lia.
    + by case_decide.
  - intros h Hresp Hh. case_decide; [|done]. by rewrite Hh.
Qed.

(** ** Properties of the identifier generator *)

Lemma nextIDs_from (G : Type) (schedule : list G) (c : wsConn) :
  0 ≤ reqID c →
  reqID c + Z.of_nat (length schedule) < 2 ^ 64 →
  (nextIDs c schedule).2.*2 = seqZ (reqID c + 1) (Z.of_nat (length schedule))
  ∧ (nextIDs c schedule).2.*1 = schedule
  ∧ reqID (nextIDs c schedule).1 = reqID c + Z.of_nat (length schedule).
Proof.
  revert c. induction schedule as [|g rest IH]; intros c Hlo Hhi.
  - simpl. repeat split. lia.
  - cbn [nextIDs NextID length] in *.
    assert ((reqID c + 1) mod 2 ^ 64 = reqID c + 1) as Hmod
      by (apply Z.mod_small; lia).
    rewrite Hmod.
    match goal with |- context [nextIDs ?c1 rest] => specialize (IH c1) end.
    cbn [reqID] in IH.
    destruct IH as (IHids & IHsched & IHid); [lia..|].
    destruct (nextIDs _ rest) as [c2 ids]. cbn [fst snd] in *.
    rewrite !fmap_cons, IHids, IHsched, IHid. cbn [fst snd].
    repeat split; [|lia].
    rewrite (seqZ_cons (reqID c + 1)) by lia.
    f_equal. f_equal; lia.
Qed.

(** C9. The identifier generator of a new connection counts from 1: for
    every schedule of N concurrent callers within the 64-bit range, the call
    that takes effect in place i (from 0) returns i + 1; so the first call
    returns 1, the second 2, and the N identifiers are nonzero, pairwise
    distinct, and increase with the order of the calls. *)
Theorem NextID_distinct_nonzero (G : Type) (schedule : list G) :
  Z.of_nat (length schedule) < 2 ^ 64 →
  let ids := (nextIDs newWsConn schedule).2.*2 in
  length ids = length schedule
  ∧ (nextIDs newWsConn schedule).2.*1 = schedule
  ∧ (∀ i, (i < length schedule)%nat → ids !! i = Some (Z.of_nat i + 1))
  ∧ NoDup ids
  ∧ (∀ id, id ∈ ids → id ≠ 0 ∧ 1 ≤ id ≤ Z.of_nat (length schedule))
  ∧ (∀ i j a b, ids !! i = Some a → ids !! j = Some b → (i < j)%nat → a < b).
Proof.
  intros Hrange ids.
  destruct (nextIDs_from G schedule newWsConn) as (Hids & Hsched & _);
    [simpl; lia..|].
  simpl in Hids. subst ids. rewrite Hids.
  split; [rewrite length_seqZ; lia|]. split; [done|].
  split; [intros i Hi; rewrite lookup_seqZ_lt by lia; f_equal; lia|].
  split; [apply NoDup_seqZ|].
  split; [intros id Hin; apply elem_of_seqZ in Hin; lia|].
  intros i j a b Ha Hb Hij.
  apply lookup_seqZ in Ha, Hb. lia.
Qed.

End Transport.

(** ** The frames of [TestWsConn]

    The test sends the client a frame that is not an envelope, then the
    request [makeRequest(1, msgjson.MatchRoute, match)], and expects that
    request on the message source. *)
Definition matchRequest : msgjson.Message :=
  {| msgjson.msg_Type := msgjson.Request; msgjson.msg_Route := "match";
     msgjson.msg_ID := 1; msgjson.msg_Payload := msgjson.RawJSON "{match}" |}.

Definition initResponse : msgjson.Message :=
  {| msgjson.msg_Type := msgjson.Response; msgjson.msg_Route := "";
     msgjson.msg_ID := 1; msgjson.msg_Payload := msgjson.RawJSON "{result}" |}.

Definition sampleDecode (frame : string) : option msgjson.Message :=
  if decide (frame = "match request") then Some matchRequest
  else if decide (frame = "init response") then Some initResponse
  else None.

Example test_malformed_then_request :
  readCh _ (readPump sampleDecode unit (newWsConn unit)
              [Frame "{notjson"; Frame "match request"]) = [matchRequest].
Proof. reflexivity. Qed.

(** At the end of the 64-bit range the counter wraps; the specification
    leaves the identifiers undefined from there on. *)
Example NextID_at_limit :
  (NextID unit {| reqID := 2 ^ 64 - 1; connected := true; respHandlers := ∅;
                  readCh := []; called := []; logs := [] |}).2 = 0.
Proof. reflexivity. Qed.

Example test_next_id :
  (nextIDs unit (newWsConn unit) ["main"; "main"]).2 = [("main", 1); ("main", 2)].
Proof. reflexivity. Qed.

(** [readPump_drops_malformed] at the frames of the test. *)
Lemma readPump_drops_malformed_witness :
  connected _ (readFrame sampleDecode unit (newWsConn unit) "{notjson") = true
  ∧ readCh _ (readPump sampleDecode unit (newWsConn unit)
                [Frame "{notjson"; Frame "match request"])
    = readCh _ (newWsConn unit) ++ [matchRequest].
Proof.
  destruct (readPump_drops_malformed sampleDecode unit (newWsConn unit) "{notjson" [])
    as (Hup & _ & _ & _ & Hnext).
  - reflexivity.
  - reflexivity.
  - split; [exact Hup|].
    destruct (Hnext "match request" matchRequest eq_refl) as (_ & Hstream & _).
    apply Hstream. left. reflexivity.
Defined.

(** [NextID_distinct_nonzero] at three calls by two goroutines. *)
Lemma NextID_distinct_nonzero_witness :
  (nextIDs unit (newWsConn unit) ["a"; "b"; "a"]).2.*2 !! 1%nat = Some 2
  ∧ NoDup (nextIDs unit (newWsConn unit) ["a"; "b"; "a"]).2.*2.
Proof.
  destruct (NextID_distinct_nonzero unit string ["a"; "b"; "a"])
    as (_ & _ & Hnth & Hdistinct & _).
  - simpl. lia.
  - split; [apply (Hnth 1%nat); simpl; lia | exact Hdistinct].
Defined.

End WsConn.

(** * rpcserver.go: [Run] and the order of shutdown

    [Run] starts a goroutine that waits for the context and calls
    [srv.Shutdown], serves until [Serve] returns, disconnects the clients
    under the lock, waits for the wait group and logs [RPC server off]. The
    goroutines are modelled by their program points and the shared state by
    a record; a run is the list of the atomic actions taken, in the order
    they take effect.

    From net/http: [Shutdown] closes the listener at once and returns
    later; [Serve] returns [ErrServerClosed] once [Shutdown] has been called,
    or another error when accepting fails, and closes the listener itself on
    return. Sessions are registered and removed by the websocket endpoint
    under [s.mtx], in a file that is not among the sources, so these actions
    may occur whenever the lock permits. A syncer goroutine is started by
    [newMarketSyncer] under a [dex.StartStopWaiter] of its own and ends when
    [marketSyncer.Run] returns; the only [s.wg.Add] of the sources is the
    one for the goroutine that calls [Shutdown], so starting and ending a
    syncer leaves [s.wg] alone. *)
Module Shutdown.

Inductive action :=
| Cancel                       (* the governing context is cancelled *)
| CallShutdown                 (* closer: ctx.Done() fired, srv.Shutdown closes the listener *)
| ShutdownReturns              (* closer: Shutdown returned, deferred s.wg.Done() *)
| ServeReturns                 (* main: Serve returned http.ErrServerClosed *)
| ServeFails                   (* main: Serve returned another error (logged) and closed the listener *)
| Lock (tracked : gset Z)      (* main: s.mtx.Lock(), ranging over the sessions in s.clients *)
| Disconnect (c : Z)           (* main: cl.Disconnect() *)
| Unlock                       (* main: s.mtx.Unlock() *)
| ServerOff                    (* main: s.wg.Wait() returned, log.Infof("RPC server off") *)
| Connect (c : Z)              (* a session is registered in s.clients *)
| Drop (c : Z)                 (* a session is removed from s.clients *)
| Spawn                        (* newMarketSyncer starts a syncer goroutine *)
| SyncerExit.                  (* marketSyncer.Run returns *)

#[global] Instance action_eq_dec : EqDecision action.
Proof. solve_decision. Defined.

(** The program point of [Run]. *)
Inductive mainPC :=
| Serving
| Returned
| Disconnecting (todo : gset Z)
| Waiting
| Off.

(** The program point of the goroutine [Run] starts. *)
Inductive closerPC := AwaitDone | InShutdown | CloserExited.

#[global] Instance mainPC_eq_dec : EqDecision mainPC.
Proof. solve_decision. Defined.

#[global] Instance closerPC_eq_dec : EqDecision closerPC.
Proof. solve_decision. Defined.

Record state := {
  cancelled : bool;
  listening : bool;
  main : mainPC;
  closer : closerPC;
  clients : gset Z;
  syncers : nat;
  wg : nat
}.

(** [Run] after [tls.Listen] succeeded, [s.wg.Add(1)] and the [go]
    statement: the maps made by [New] are empty. *)
Definition init : state :=
  {| cancelled := false; listening := true; main := Serving; closer := AwaitDone;
     clients := ∅; syncers := 0; wg := 1 |}.

Definition locked (st : state) : bool :=
  match main st with
  | Disconnecting _ => true
  | _ => false
  end.

Definition setMain (st : state) (pc : mainPC) : state :=
  {| cancelled := cancelled st; listening := listening st; main := pc;
     closer := closer st; clients := clients st; syncers := syncers st; wg := wg st |}.

Definition setClients (st : state) (cs : gset Z) : state :=
  {| cancelled := cancelled st; listening := listening st; main := main st;
     closer := closer st; clients := cs; syncers := syncers st; wg := wg st |}.

(** One atomic action; [None] when the action is not enabled. *)
Definition step (st : state) (a : action) : option state :=
  match a with
  | Cancel =>
      Some {| cancelled := true; listening := listening st; main := main st;
              closer := closer st; clients := clients st; syncers := syncers st;
              wg := wg st |}
  | CallShutdown =>
      if decide (closer st = AwaitDone ∧ cancelled st = true) then
        Some {| cancelled := cancelled st; listening := false; main := main st;
                closer := InShutdown; clients := clients st; syncers := syncers st;
                wg := wg st |}
      else None
  | ShutdownReturns =>
      if decide (closer st = InShutdown) then
        Some {| cancelled := cancelled st; listening := listening st; main := main st;
                closer := CloserExited; clients := clients st; syncers := syncers st;
                wg := pred (wg st) |}
      else None
  | ServeReturns =>
      if decide (main st = Serving ∧ listening st = false)
      then Some (setMain st Returned) else None
  | ServeFails =>
      if decide (main st = Serving ∧ listening st = true) then
        Some {| cancelled := cancelled st; listening := false; main := Returned;
                closer := closer st; clients := clients st; syncers := syncers st;
                wg := wg st |}
      else None
  | Lock tracked =>
      if decide (main st = Returned ∧ tracked = clients st)
      then Some (setMain st (Disconnecting tracked)) else None
  | Disconnect c =>
      match main st with
      | Disconnecting todo =>
          if decide (c ∈ todo) then Some (setMain st (Disconnecting (todo ∖ {[c]})))
          else None
      | _ => None
      end
  | Unlock =>
      if decide (main st = Disconnecting ∅) then Some (setMain st Waiting) else None
  | ServerOff =>
      if decide (main st = Waiting ∧ wg st = 0%nat) then Some (setMain st Off) else None
  | Connect c =>
      if decide (locked st = false ∧ c ∉ clients st)
      then Some (setClients st (clients st ∪ {[c]})) else None
  | Drop c =>
      if decide (locked st = false ∧ c ∈ clients st)
      then Some (setClients st (clients st ∖ {[c]})) else None
  | Spawn =>
      Some {| cancelled := cancelled st; listening := listening st; main := main st;
              closer := closer st; clients := clients st; syncers := S (syncers st);
              wg := wg st |}
  | SyncerExit =>
      match syncers st with
      | S n =>
          Some {| cancelled := cancelled st; listening := listening st; main := main st;
                  closer := closer st; clients := clients st; syncers := n;
                  wg := wg st |}
      | O => None
      end
  end.

(** A run: the actions are taken in order; [None] when one is not enabled. *)
Definition run (st : state) (tr : list action) : option state :=
  foldl (λ o a, o ≫= λ st', step st' a) (Some st) tr.

(** The sessions in [s.clients] after a run. *)
Definition sessions (tr : list action) : gset Z :=
  foldl (λ cs a, match a with
                 | Connect c => cs ∪ {[c]}
                 | Drop c => cs ∖ {[c]}
                 | _ => cs
                 end) ∅ tr.

Definition count (a : action) (tr : list action) : nat :=
  length (filter (λ b, b = a) tr).

Definition noDisconnect (tr : list action) : Prop := ∀ c, Disconnect c ∉ tr.

(** The listener is closed by [a], the action after the run [p1]: by
    [Shutdown], called on cancellation, or by a failing [Serve]. *)
Definition closesListener (p1 : list action) (a : action) : Prop :=
  (a = CallShutdown ∧ Cancel ∈ p1) ∨ a = ServeFails.

(** The order of shutdown in a run [tr]: the listener is closed, before any
    session is disconnected; then the sessions tracked at that time are
    locked, and each of them not in [todo] has been disconnected. *)
Definition down (todo : gset Z) (tr : list action) : Prop :=
  ∃ p1 a p2 tracked p3,
    tr = p1 ++ a :: p2 ++ Lock tracked :: p3
    ∧ closesListener p1 a
    ∧ noDisconnect (p1 ++ a :: p2)
    ∧ tracked = sessions (p1 ++ a :: p2)
    ∧ ∀ c, c ∈ tracked → c ∉ todo → Disconnect c ∈ p3.

(** What holds of the run [pre] before [RPC server off] is logged. *)
Definition orderly (pre : list action) : Prop :=
  down ∅ pre
  ∧ ShutdownReturns ∈ pre
  ∧ Cancel ∈ pre
  ∧ (ServerOff ∉ pre).

(** ** The invariant of a run *)

(** What the goroutine started by [Run] holds of the wait group. *)
Definition closerShare (pc : closerPC) : nat :=
  match pc with
  | CloserExited => 0
  | _ => 1
  end.

Record Inv (tr : list action) (st : state) : Prop := {
  inv_cancel : cancelled st = true → Cancel ∈ tr;
  inv_clients : clients st = sessions tr;
  inv_count : count Spawn tr = (syncers st + count SyncerExit tr)%nat;
  inv_wg : wg st = closerShare (closer st);
  inv_closer : closer st = CloserExited → ShutdownReturns ∈ tr;
  inv_shutdown : closer st ≠ AwaitDone → Cancel ∈ tr;
  inv_main :
    match main st with
    | Serving =>
        noDisconnect tr ∧ (ServerOff ∉ tr)
        ∧ (listening st = false → ∃ p1 p2, tr = p1 ++ CallShutdown :: p2 ∧ Cancel ∈ p1)
    | Returned =>
        noDisconnect tr ∧ (ServerOff ∉ tr)
        ∧ ∃ p1 a p2, tr = p1 ++ a :: p2 ∧ closesListener p1 a
    | Disconnecting todo => (ServerOff ∉ tr) ∧ down todo tr
    | Waiting => (ServerOff ∉ tr) ∧ down ∅ tr
    | Off => ∃ pre post, tr = pre ++ ServerOff :: post ∧ (ServerOff ∉ post) ∧ orderly pre
    end
}.


(** ** Runs grow at the end *)

Lemma run_snoc (st : state) (tr : list action) (a : action) :
  run st (tr ++ [a]) = run st tr ≫= λ st', step st' a.
Proof. unfold run. by rewrite foldl_app. Qed.

Lemma sessions_snoc (tr : list action) (a : action) :
  sessions (tr ++ [a]) =
  match a with
  | Connect c => sessions tr ∪ {[c]}
  | Drop c => sessions tr ∖ {[c]}
  | _ => sessions tr
  end.
Proof. unfold sessions. by rewrite foldl_app. Qed.

Lemma count_snoc (a b : action) (tr : list action) :
  count a (tr ++ [b]) = (count a tr + if decide (b = a) then 1 else 0)%nat.
Proof.
  unfold count. rewrite filter_app, length_app, filter_cons, filter_nil.
  by case_decide.
Qed.

Lemma noDisconnect_snoc (tr : list action) (a : action) :
  noDisconnect tr → (∀ c, a ≠ Disconnect c) → noDisconnect (tr ++ [a]).
Proof.
  intros Hno Ha c Hin. apply elem_of_app in Hin as [Hin|Hin]; [by apply (Hno c)|].
  apply list_elem_of_singleton in Hin. by apply (Ha c).
Qed.

Lemma not_elem_of_snoc (tr : list action) (a b : action) :
  b ∉ tr → a ≠ b → b ∉ (tr ++ [a]).
Proof.
  intros Hno Hne Hin. apply elem_of_app in Hin as [Hin|Hin]; [done|].
  apply list_elem_of_singleton in Hin. congruence.
Qed.

Lemma down_snoc (todo : gset Z) (tr : list action) (a : action) :
  down todo tr → down todo (tr ++ [a]).
Proof.
  intros (p1 & b & p2 & tracked & p3 & -> & Hclose & Hno & Htracked & Hdone).
  exists p1, b, p2, tracked, (p3 ++ [a]).
  split; [by rewrite <- !app_assoc, <- !app_comm_cons, <- app_assoc|].
  repeat split; try done.
  intros c Hc Htodo. apply elem_of_app. left. by apply Hdone.
Qed.

Lemma down_disconnect (todo : gset Z) (tr : list action) (c : Z) :
  down todo tr → down (todo ∖ {[c]}) (tr ++ [Disconnect c]).
Proof.
  intros (p1 & b & p2 & tracked & p3 & -> & Hclose & Hno & Htracked & Hdone).
  exists p1, b, p2, tracked, (p3 ++ [Disconnect c]).
  split; [by rewrite <- !app_assoc, <- !app_comm_cons, <- app_assoc|].
  repeat split; try done.
  intros c' Hc' Htodo. apply elem_of_app.
  destruct (decide (c' = c)) as [->|Hne].
  - right. apply list_elem_of_singleton. done.
  - left. apply Hdone; [done|]. set_solver.
Qed.

Lemma down_weaken (todo : gset Z) (tr : list action) :
  down todo tr → todo = ∅ → down ∅ tr.
Proof. by intros ? ->. Qed.


Lemma Inv_init : Inv [] init.
Proof.
  split; simpl; try done.
  - repeat split; [intros c Hin; by apply elem_of_nil in Hin | by intros Hin%elem_of_nil | done].
Qed.

(** The part of the invariant about [Run]'s program point, for an action of
    another goroutine: the program point stays, the run grows. *)
Lemma inv_main_other (tr : list action) (st st' : state) (a : action) :
  Inv tr st →
  main st' = main st →
  (listening st' = false → listening st = false ∨ (a = CallShutdown ∧ Cancel ∈ tr)) →
  (∀ c, a ≠ Disconnect c) → a ≠ ServerOff →
  match main st' with
  | Serving =>
      noDisconnect (tr ++ [a]) ∧ (ServerOff ∉ (tr ++ [a]))
      ∧ (listening st' = false →
         ∃ p1 p2, tr ++ [a] = p1 ++ CallShutdown :: p2 ∧ Cancel ∈ p1)
  | Returned =>
      noDisconnect (tr ++ [a]) ∧ (ServerOff ∉ (tr ++ [a]))
      ∧ ∃ p1 b p2, tr ++ [a] = p1 ++ b :: p2 ∧ closesListener p1 b
  | Disconnecting todo => (ServerOff ∉ (tr ++ [a])) ∧ down todo (tr ++ [a])
  | Waiting => (ServerOff ∉ (tr ++ [a])) ∧ down ∅ (tr ++ [a])
  | Off => ∃ pre post, tr ++ [a] = pre ++ ServerOff :: post ∧ (ServerOff ∉ post) ∧ orderly pre
  end.
Proof.
  intros HI Hmain Hlisten Hdisc Hoff. pose proof (inv_main tr st HI) as Hm.
  rewrite Hmain. destruct (main st) as [| |todo| |].
  - destruct Hm as (Hno & Hso & Hclosed).
    split; [by apply noDisconnect_snoc|]. split; [by apply not_elem_of_snoc|].
    intros Hl. destruct (Hlisten Hl) as [Hl'|[-> Hc]].
    + destruct (Hclosed Hl') as (p1 & p2 & -> & Hc).
      exists p1, (p2 ++ [a]). by rewrite <- app_assoc.
    + by exists tr, [].
  - destruct Hm as (Hno & Hso & p1 & b & p2 & -> & Hclose).
    split; [by apply noDisconnect_snoc|]. split; [by apply not_elem_of_snoc|].
    exists p1, b, (p2 ++ [a]). by rewrite <- app_assoc.
  - destruct Hm as (Hso & Hdown).
    split; [by apply not_elem_of_snoc | by apply down_snoc].
  - destruct Hm as (Hso & Hdown).
    split; [by apply not_elem_of_snoc | by apply down_snoc].
  - destruct Hm as (pre & post & -> & Hpost & Hord).
    exists pre, (post ++ [a]). split; [by rewrite <- app_assoc|].
    split; [by apply not_elem_of_snoc | done].
Qed.

(** The bookkeeping parts of the invariant after one more action. *)
Ltac bookkeeping :=
  simpl in *;
  first
    [ (* a list membership *)
      intros; apply elem_of_app;
      first [ right; apply list_elem_of_singleton; reflexivity
            | left; first [ by auto
                          | match goal with
                            | H : _ → ?x ∈ ?l |- ?x ∈ ?l => apply H; congruence
                            end ] ]
    | (* the sessions *)
      rewrite sessions_snoc; simpl; congruence
    | (* the counters *)
      rewrite ?count_snoc;
      repeat match goal with
             | H : closer _ = _ |- _ => rewrite H in *
             | H : syncers _ = _ |- _ => rewrite H in *
             end;
      repeat case_decide; simplify_eq; simpl in *; lia ].

(** The guard of an enabled action holds. *)
Ltac enabled Hstep Hg :=
  match type of Hstep with
  | (if decide ?P then _ else _) = Some _ =>
      destruct (decide P) as [Hg|]; [|discriminate Hstep]
  end; injection Hstep as <-.

Lemma Inv_step (tr : list action) (st st' : state) (a : action) :
  Inv tr st → step st a = Some st' → Inv (tr ++ [a]) st'.
Proof.
  intros HI Hstep.
  pose proof HI as [Hcancel Hclients Hcount Hwg Hcloser Hshut Hmain].
  destruct a; simpl in Hstep.
  - (* Cancel *)
    injection Hstep as <-. split; try bookkeeping.
    apply (inv_main_other tr st); simpl; auto.
  - (* CallShutdown *)
    enabled Hstep Hg. destruct Hg as [Hc Hcan].
    split; try bookkeeping.
    apply (inv_main_other tr st); simpl; auto.
  - (* ShutdownReturns *)
    enabled Hstep Hg.
    split; try bookkeeping.
    apply (inv_main_other tr st); simpl; auto.
  - (* ServeReturns *)
    enabled Hstep Hg. destruct Hg as [Hserving Hclosed].
    rewrite Hserving in Hmain. destruct Hmain as (Hno & Hso & Hdown).
    destruct (Hdown Hclosed) as (p1 & p2 & -> & Hc).
    split; try bookkeeping. simpl.
    split; [by apply noDisconnect_snoc|]. split; [by apply not_elem_of_snoc|].
    exists p1, CallShutdown, (p2 ++ [ServeReturns]).
    split; [by rewrite <- app_assoc | by left].
  - (* ServeFails *)
    enabled Hstep Hg. destruct Hg as [Hserving Hopen].
    rewrite Hserving in Hmain. destruct Hmain as (Hno & Hso & _).
    split; try bookkeeping. simpl.
    split; [by apply noDisconnect_snoc|]. split; [by apply not_elem_of_snoc|].
    exists tr, ServeFails, []. split; [done | by right].
  - (* Lock *)
    enabled Hstep Hg. destruct Hg as [Hret ->].
    rewrite Hret in Hmain. destruct Hmain as (Hno & Hso & p1 & b & p2 & -> & Hclose).
    split; try bookkeeping. simpl.
    split; [by apply not_elem_of_snoc|].
    exists p1, b, p2, (clients st), [].
    split; [by rewrite <- app_assoc|]. repeat split; try done.
  - (* Disconnect *)
    destruct (main st) as [| |todo| |] eqn:Hm; try done.
    enabled Hstep Hin. destruct Hmain as (Hso & Hdown).
    split; try bookkeeping. simpl.
    split; [by apply not_elem_of_snoc | by apply down_disconnect].
  - (* Unlock *)
    enabled Hstep Hg. rewrite Hg in Hmain. destruct Hmain as (Hso & Hdown).
    split; try bookkeeping. simpl.
    split; [by apply not_elem_of_snoc | by apply down_snoc].
  - (* ServerOff *)
    enabled Hstep Hg. destruct Hg as [Hwait Hzero].
    rewrite Hwait in Hmain. destruct Hmain as (Hso & Hdown).
    split; try bookkeeping. simpl.
    exists tr, []. split; [done|]. split; [by intros Hin%elem_of_nil|].
    assert (closer st = CloserExited) as Hexit.
    { rewrite Hzero in Hwg. by destruct (closer st). }
    split; [done|].
    split; [by apply Hcloser|]. split; [apply Hshut; congruence | done].
  - (* Connect *)
    enabled Hstep Hg. destruct Hg as [Hfree Hnew].
    split; try bookkeeping.
    apply (inv_main_other tr st); simpl; auto.
  - (* Drop *)
    enabled Hstep Hg. destruct Hg as [Hfree Hold].
    split; try bookkeeping.
    apply (inv_main_other tr st); simpl; auto.
  - (* Spawn *)
    injection Hstep as <-. split; try bookkeeping.
    apply (inv_main_other tr st); simpl; auto.
  - (* SyncerExit *)
    destruct (syncers st) as [|n] eqn:Hn; [done|]. injection Hstep as <-.
    split; try bookkeeping.
    apply (inv_main_other tr st); simpl; auto.
Qed.

Lemma run_Inv (tr : list action) (st : state) : run init tr = Some st → Inv tr st.
Proof.
  revert st. induction tr as [|a tr IH] using rev_ind; intros st Hrun.
  - injection Hrun as <-. apply Inv_init.
  - rewrite run_snoc in Hrun. destruct (run init tr) as [st0|]; [|done].
    simpl in Hrun. eapply Inv_step; eauto.
Qed.


(** ** The sessions [Run] disconnects *)

(** The lock was taken in the run [tr], with the sessions [tracked]
    registered at that time. *)
Definition lockedAt (tracked : gset Z) (tr : list action) : Prop :=
  ∃ p q, tr = p ++ Lock tracked :: q ∧ tracked = sessions p.

(** [Disconnect] was called once on each session in [served] and on no
    other session. *)
Definition tally (served : gset Z) (tr : list action) : Prop :=
  ∀ c, count (Disconnect c) tr = if decide (c ∈ served) then 1%nat else 0%nat.

Definition Tally (tr : list action) (st : state) : Prop :=
  match main st with
  | Serving | Returned => (Unlock ∉ tr) ∧ tally ∅ tr
  | Disconnecting todo =>
      (Unlock ∉ tr)
      ∧ ∃ tracked, lockedAt tracked tr ∧ todo ⊆ tracked ∧ tally (tracked ∖ todo) tr
  | Waiting | Off => ∃ tracked, lockedAt tracked tr ∧ tally tracked tr
  end.

Lemma tally_snoc (served : gset Z) (tr : list action) (a : action) :
  tally served tr → (∀ c, a ≠ Disconnect c) → tally served (tr ++ [a]).
Proof.
  intros Htally Ha c. rewrite count_snoc, Htally.
  destruct (decide (a = Disconnect c)) as [Heq|_]; [by destruct (Ha c)|].
  apply Nat.add_0_r.
Qed.

Lemma tally_same (served served' : gset Z) (tr : list action) :
  (∀ c, c ∈ served ↔ c ∈ served') → tally served tr → tally served' tr.
Proof.
  intros Hsame Htally c. rewrite Htally.
  destruct (decide (c ∈ served)) as [Hin|Hout], (decide (c ∈ served')) as [Hin'|Hout'];
    try done.
  - destruct Hout'. by apply Hsame.
  - destruct Hout. by apply Hsame.
Qed.

Lemma tally_disconnect (tracked todo : gset Z) (tr : list action) (c : Z) :
  c ∈ todo → todo ⊆ tracked →
  tally (tracked ∖ todo) tr → tally (tracked ∖ (todo ∖ {[c]})) (tr ++ [Disconnect c]).
Proof.
  intros Hc Hsub Htally c'. rewrite count_snoc, Htally.
  pose proof (proj1 (elem_of_subseteq todo tracked) Hsub c Hc) as Hc'.
  destruct (decide (Disconnect c = Disconnect c')) as [[= <-]|Hne].
  - rewrite decide_False by (rewrite elem_of_difference; tauto).
    rewrite decide_True; [done|].
    rewrite !elem_of_difference, elem_of_singleton. tauto.
  - assert (c' ≠ c) as Hother by congruence.
    destruct (decide (c' ∈ tracked ∖ todo)) as [Hin|Hout].
    + rewrite decide_True; [done|]. revert Hin.
      rewrite !elem_of_difference, elem_of_singleton. tauto.
    + rewrite decide_False; [done|]. revert Hout.
      rewrite !elem_of_difference, elem_of_singleton. tauto.
Qed.

Lemma lockedAt_snoc (tracked : gset Z) (tr : list action) (a : action) :
  lockedAt tracked tr → lockedAt tracked (tr ++ [a]).
Proof.
  intros (p & q & -> & Htracked). exists p, (q ++ [a]).
  split; [by rewrite <- app_assoc | done].
Qed.

Lemma Tally_init : Tally [] init.
Proof. split; [by intros Hin%elem_of_nil | done]. Qed.

(** An action of another goroutine, or one of [Run] that is no call of
    [Disconnect] or [Unlock] and leaves its program point. *)
Lemma Tally_other (tr : list action) (st st' : state) (a : action) :
  Tally tr st → main st' = main st →
  (∀ c, a ≠ Disconnect c) → a ≠ Unlock → Tally (tr ++ [a]) st'.
Proof.
  unfold Tally. intros HT -> Hdisc Hunlock. destruct (main st) as [| |todo| |].
  - destruct HT as [Hno Htally].
    split; [by apply not_elem_of_snoc | by apply tally_snoc].
  - destruct HT as [Hno Htally].
    split; [by apply not_elem_of_snoc | by apply tally_snoc].
  - destruct HT as (Hno & tracked & Hlock & Hsub & Htally).
    split; [by apply not_elem_of_snoc|]. exists tracked.
    split; [by apply lockedAt_snoc|]. split; [done | by apply tally_snoc].
  - destruct HT as (tracked & Hlock & Htally). exists tracked.
    split; [by apply lockedAt_snoc | by apply tally_snoc].
  - destruct HT as (tracked & Hlock & Htally). exists tracked.
    split; [by apply lockedAt_snoc | by apply tally_snoc].
Qed.

Lemma Tally_step (tr : list action) (st st' : state) (a : action) :
  clients st = sessions tr → Tally tr st → step st a = Some st' → Tally (tr ++ [a]) st'.
Proof.
  intros Hclients HT Hstep. destruct a; simpl in Hstep.
  - (* Cancel *)
    injection Hstep as <-. by apply (Tally_other tr st).
  - (* CallShutdown *)
    enabled Hstep Hg. by apply (Tally_other tr st).
  - (* ShutdownReturns *)
    enabled Hstep Hg. by apply (Tally_other tr st).
  - (* ServeReturns *)
    enabled Hstep Hg. destruct Hg as [Hserving _].
    unfold Tally in *. rewrite Hserving in HT. simpl. destruct HT as [Hno Htally].
    split; [by apply not_elem_of_snoc | by apply tally_snoc].
  - (* ServeFails *)
    enabled Hstep Hg. destruct Hg as [Hserving _].
    unfold Tally in *. rewrite Hserving in HT. simpl. destruct HT as [Hno Htally].
    split; [by apply not_elem_of_snoc | by apply tally_snoc].
  - (* Lock *)
    enabled Hstep Hg. destruct Hg as [Hret ->].
    unfold Tally in *. rewrite Hret in HT. simpl. destruct HT as [Hno Htally].
    split; [by apply not_elem_of_snoc|]. exists (clients st).
    split; [by exists tr, []|]. split; [done|].
    apply tally_snoc; [|done]. apply (tally_same ∅); [|done].
    intros c. rewrite elem_of_difference. split; [by intros Hin%elem_of_empty | tauto].
  - (* Disconnect *)
    unfold Tally in *. destruct (main st) as [| |todo| |] eqn:Hm; try done.
    enabled Hstep Hin. simpl. destruct HT as (Hno & tracked & Hlock & Hsub & Htally).
    split; [by apply not_elem_of_snoc|]. exists tracked.
    split; [by apply lockedAt_snoc|]. split.
    { apply elem_of_subseteq. intros c' [Hc' _]%elem_of_difference. revert c' Hc'.
      by apply elem_of_subseteq. }
    by apply tally_disconnect.
  - (* Unlock *)
    enabled Hstep Hg. unfold Tally in *. rewrite Hg in HT. simpl.
    destruct HT as (_ & tracked & Hlock & _ & Htally). exists tracked.
    split; [by apply lockedAt_snoc|].
    apply tally_snoc; [|done]. apply (tally_same (tracked ∖ ∅)); [|done].
    intros c. rewrite elem_of_difference, elem_of_empty. tauto.
  - (* ServerOff *)
    enabled Hstep Hg. destruct Hg as [Hwait _].
    unfold Tally in *. rewrite Hwait in HT. simpl.
    destruct HT as (tracked & Hlock & Htally). exists tracked.
    split; [by apply lockedAt_snoc | by apply tally_snoc].
  - (* Connect *)
    enabled Hstep Hg. by apply (Tally_other tr st).
  - (* Drop *)
    enabled Hstep Hg. by apply (Tally_other tr st).
  - (* Spawn *)
    injection Hstep as <-. by apply (Tally_other tr st).
  - (* SyncerExit *)
    destruct (syncers st) as [|n] eqn:Hn; [done|]. injection Hstep as <-.
    by apply (Tally_other tr st).
Qed.

Lemma run_Tally (tr : list action) (st : state) : run init tr = Some st → Tally tr st.
Proof.
  revert st. induction tr as [|a tr IH] using rev_ind; intros st Hrun.
  - injection Hrun as <-. apply Tally_init.
  - rewrite run_snoc in Hrun. destruct (run init tr) as [st0|] eqn:Hrun0; [|done].
    simpl in Hrun. apply (Tally_step tr st0); [|by apply IH|done].
    by apply (inv_clients tr st0), run_Inv.
Qed.

(** X14. In every run of [Run], [Disconnect] is called at most once on a
    session. Once [Run] has released the lock, it has called [Disconnect]
    exactly once on each session that was registered when it took the lock,
    and on no other: a session registered later is not disconnected. *)
Theorem Run_disconnects_tracked_once (tr : list action) (st : state) :
  run init tr = Some st →
  (∀ c, (count (Disconnect c) tr ≤ 1)%nat)
  ∧ (Unlock ∈ tr →
     ∃ p tracked q,
       tr = p ++ Lock tracked :: q
       ∧ tracked = sessions p
       ∧ ∀ c, count (Disconnect c) tr = if decide (c ∈ tracked) then 1%nat else 0%nat).
Proof.
  intros Hrun. pose proof (run_Tally tr st Hrun) as HT. unfold Tally in HT.
  assert (∀ served, tally served tr → ∀ c, (count (Disconnect c) tr ≤ 1)%nat) as Hmost.
  { intros served Htally c. rewrite Htally. case_decide; lia. }
  destruct (main st) as [| |todo| |].
  - destruct HT as [Hno Htally]. split; [by apply (Hmost ∅) | done].
  - destruct HT as [Hno Htally]. split; [by apply (Hmost ∅) | done].
  - destruct HT as (Hno & tracked & _ & _ & Htally).
    split; [by apply (Hmost (tracked ∖ todo)) | done].
  - destruct HT as (tracked & (p & q & Htr & Htracked) & Htally).
    split; [by apply (Hmost tracked)|]. intros _. by exists p, tracked, q.
  - destruct HT as (tracked & (p & q & Htr & Htracked) & Htally).
    split; [by apply (Hmost tracked)|]. intros _. by exists p, tracked, q.
Qed.

(** ** Runs of the model *)

(** An orderly shutdown with one session and one syncer. *)
Definition sampleRun : list action :=
  [Connect 7; Spawn; Cancel; CallShutdown; ServeReturns; Lock {[7]}; Disconnect 7;
   Unlock; SyncerExit; ShutdownReturns; ServerOff].

Example sampleRun_off : main <$> run init sampleRun = Some Off.
Proof. vm_compute. reflexivity. Qed.

(** No session is disconnected while the server still serves. *)
Example disconnect_while_serving : run init [Connect 7; Cancel; Disconnect 7] = None.
Proof. vm_compute. reflexivity. Qed.

(** [Serve] does not return [ErrServerClosed] before [Shutdown] is called. *)
Example serve_returns_early : run init [Cancel; ServeReturns] = None.
Proof. vm_compute. reflexivity. Qed.

(** Not every tracked session can be skipped. *)
Example unlock_before_disconnect :
  run init [Connect 7; Cancel; CallShutdown; ServeReturns; Lock {[7]}; Unlock] = None.
Proof. vm_compute. reflexivity. Qed.

(** [RPC server off] waits for [Shutdown] to return. *)
Example off_before_shutdown_returns :
  run init [Cancel; CallShutdown; ServeReturns; Lock ∅; Unlock; ServerOff] = None.
Proof. vm_compute. reflexivity. Qed.



(** [Run_disconnects_tracked_once] at the sample run. *)
Lemma Run_disconnects_tracked_once_witness :
  (count (Disconnect 7) sampleRun ≤ 1)%nat
  ∧ ∃ p tracked q,
      sampleRun = p ++ Lock tracked :: q
      ∧ tracked = sessions p
      ∧ ∀ c, count (Disconnect c) sampleRun = if decide (c ∈ tracked) then 1%nat else 0%nat.
Proof.
  destruct (Run_disconnects_tracked_once sampleRun
              {| cancelled := true; listening := false; main := Off;
                 closer := CloserExited; clients := {[7]}; syncers := 0; wg := 0 |})
    as [Hmost Hexact].
  - vm_compute. reflexivity.
  - split; [exact (Hmost 7)|]. apply Hexact.
    unfold sampleRun. repeat (apply elem_of_cons; first [by left | right]).
Defined.

End Shutdown.

(** * Rendering numbers: [marketID] (rpcserver.go) and
    [versionResponse.String] (types.go)

    [strconv.Itoa] and the verb [%d] of [fmt.Sprintf] write an integer in
    decimal with a minus sign for negative numbers; this is [pretty] on [Z].
    The [uint32] arguments are passed as their values ([int(base)] is [base]
    where [int] has 64 bits). *)
Module Format.

Definition Itoa (i : Z) : string := pretty i.

(** [marketID]: create a unique ID for a market. *)
Definition marketID (base quote : Z) : string :=
  Itoa base +:+ "_" +:+ Itoa quote.

Record versionResponse := {
  vr_Major : Z;
  vr_Minor : Z;
  vr_Patch : Z
}.

(** [String] satisfies the Stringer interface: [%d.%d.%d]. *)
Definition String_ (vr : versionResponse) : string :=
  Itoa (vr_Major vr) +:+ "." +:+ Itoa (vr_Minor vr) +:+ "." +:+ Itoa (vr_Patch vr).

(** The character [c] does not occur in [s]. *)
Fixpoint free (c : ascii) (s : string) : Prop :=
  match s with
  | EmptyString => True
  | String a s' => a ≠ c ∧ free c s'
  end.

(** [c] is neither a decimal digit nor the minus sign. *)
Definition separator (c : ascii) : Prop :=
  (∀ d, pretty_N_char d ≠ c) ∧ c ≠ "-"%char.

Lemma separator_underscore : separator "_".
Proof. split; [|done]. intros d. unfold pretty_N_char. by repeat case_match. Qed.

Lemma separator_dot : separator ".".
Proof. split; [|done]. intros d. unfold pretty_N_char. by repeat case_match. Qed.

Lemma free_app (c : ascii) (a b : string) : free c a → free c b → free c (a +:+ b).
Proof. induction a as [|x a IH]; simpl; [done|]. intros [? ?] ?. split; auto. Qed.

Lemma pretty_N_go_free (c : ascii) (x : N) (s : string) :
  (∀ d, pretty_N_char d ≠ c) → free c s → free c (pretty_N_go x s).
Proof.
  intros Hc. revert s. induction (N.lt_wf_0 x) as [x _ IH]; intros s Hs.
  assert (x = 0 ∨ 0 < x)%N as [->|Hpos] by lia.
  - by rewrite pretty_N_go_0.
  - rewrite pretty_N_go_step by done. apply IH; [by apply N.div_lt|].
    simpl. split; [apply Hc | done].
Qed.

Lemma pretty_N_free (c : ascii) (x : N) : separator c → free c (pretty x).
Proof.
  intros [Hc _]. unfold pretty, pretty_N. case_decide.
  - simpl. split; [apply (Hc 0%N) | done].
  - by apply pretty_N_go_free.
Qed.

Lemma Itoa_free (c : ascii) (i : Z) : separator c → free c (Itoa i).
Proof.
  intros Hsep. unfold Itoa, pretty, pretty_Z. destruct i as [|p|p].
  - simpl. split; [apply (proj1 Hsep 0%N) | done].
  - by apply (pretty_N_free c (N.pos p)).
  - simpl. split; [by destruct Hsep as [_ Hd]; congruence|].
    by apply (pretty_N_free c (N.pos p)).
Qed.

(** A text is cut in one way only at a character that its first part does
    not contain. *)
Lemma split_at_separator (c : ascii) (a a' b b' : string) :
  free c a → free c a' →
  a +:+ String c b = a' +:+ String c b' → a = a' ∧ b = b'.
Proof.
  revert a'. induction a as [|x a IH]; intros [|x' a']; simpl.
  - intros _ _ [= ->]. done.
  - intros _ [Hx' _] [= Hc _]. congruence.
  - intros [Hx _] _ [= Hc _]. congruence.
  - intros [_ Ha] [_ Ha'] [= -> Heq]. destruct (IH a' Ha Ha' Heq) as [-> ->]. done.
Qed.

(** X5. [marketID] is injective: two markets have the same identifier only
    if they have the same base and the same quote asset. *)
Theorem marketID_inj (base quote base' quote' : Z) :
  marketID base quote = marketID base' quote' → base = base' ∧ quote = quote'.
Proof.
  unfold marketID. intros Heq.
  apply (split_at_separator "_") in Heq as [Hb Hq];
    [|by apply Itoa_free, separator_underscore..].
  split; by apply (inj pretty).
Qed.

(** X6. [String] is injective on versions: two versions are printed alike
    only if their three numbers agree. *)
Theorem versionResponse_String_inj (v v' : versionResponse) :
  String_ v = String_ v' → v = v'.
Proof.
  unfold String_. intros Heq.
  apply (split_at_separator ".") in Heq as [Hmajor Heq];
    [|by apply Itoa_free, separator_dot..].
  apply (split_at_separator ".") in Heq as [Hminor Hpatch];
    [|by apply Itoa_free, separator_dot..].
  apply (inj pretty) in Hmajor, Hminor, Hpatch.
  destruct v, v'. simpl in *. by subst.
Qed.

Example marketID_dcr_btc : marketID 42 0 = "42_0".
Proof. reflexivity. Qed.

Example version_string :
  String_ {| vr_Major := 0; vr_Minor := 1; vr_Patch := 12 |} = "0.1.12".
Proof. reflexivity. Qed.

(** [marketID_inj] at DCR-BTC. *)
Lemma marketID_inj_witness : marketID 42 0 = "42_0" ∧ (42 = 42 ∧ 0 = 0).
Proof. split; [reflexivity | apply (marketID_inj 42 0 42 0); reflexivity]. Defined.

(** [versionResponse_String_inj] at version 0.1.12. *)
Lemma versionResponse_String_inj_witness :
  String_ {| vr_Major := 0; vr_Minor := 1; vr_Patch := 12 |} = "0.1.12"
  ∧ {| vr_Major := 0; vr_Minor := 1; vr_Patch := 12 |}
    = {| vr_Major := 0; vr_Minor := 1; vr_Patch := 12 |}.
Proof.
  split; [reflexivity|].
  apply (versionResponse_String_inj {| vr_Major := 0; vr_Minor := 1; vr_Patch := 12 |}
           {| vr_Major := 0; vr_Minor := 1; vr_Patch := 12 |}).
  reflexivity.
Defined.

End Format.
